(** * CSV ingestion and record gateway: a shallow embedding

    The development follows [csv_data_ingestion.py] (class
    [CsvDataIngestion]: schema builder, bulk loader, [search_data]) and
    [app.py] ([build_where_clause] and the HTTP operations).  Python
    dictionaries are association lists in insertion order, exceptions are
    the [Err] side of a result type, and the relational store the
    statements are sent to is an explicit state [db] that every
    operation threads. *)

From Stdlib Require Import List String Ascii ZArith Bool Lia Arith.
From Stdlib Require Import DecimalString Decimal.
From Stdlib Require DecimalNat.
Import ListNotations.

Local Open Scope string_scope.
Local Open Scope list_scope.

Infix "^^" := String.append (at level 60, right associativity).

(** ** Text helpers *)

Definition dq : string := String (ascii_of_nat 34) EmptyString.
Definition nl : string := String (ascii_of_nat 10) EmptyString.

Fixpoint spaces (n : nat) : string :=
  match n with
  | O => EmptyString
  | S k => String (ascii_of_nat 32) (spaces k)
  end.

(** [sep.join(xs)] *)
Definition join (sep : string) (xs : list string) : string :=
  String.concat sep xs.

(** [str(n)] for a Python integer. *)
Definition str_of_Z (z : Z) : string := NilZero.string_of_int (Z.to_int z).
Definition str_of_nat (n : nat) : string := NilZero.string_of_uint (Nat.to_uint n).

(** The f-string piece ["{col}"] with its double quotes. *)
Definition quoted (col : string) : string := dq ^^ col ^^ dq.

(** [str.lower] restricted to ASCII, which is also what the store's
    [LOWER] does on ASCII text. *)
Definition lower_ascii (c : ascii) : ascii :=
  let n := nat_of_ascii c in
  if andb (Nat.leb 65 n) (Nat.leb n 90) then ascii_of_nat (n + 32) else c.

Fixpoint lower (s : string) : string :=
  match s with
  | EmptyString => EmptyString
  | String c r => String (lower_ascii c) (lower r)
  end.

(** ** Results and exceptions *)

Inductive result (E A : Type) : Type :=
| Ok (a : A)
| Err (e : E).
Arguments Ok {E A} a.
Arguments Err {E A} e.

Definition bind {E A B} (m : result E A) (k : A -> result E B) : result E B :=
  match m with
  | Ok a => k a
  | Err e => Err e
  end.

Notation "x <- m ;; k" := (bind m (fun x => k))
  (at level 61, m at next level, right associativity).

Definition is_ok {E A} (m : result E A) : bool :=
  match m with Ok _ => true | Err _ => false end.

(** ** Scalar values

    What a cell of the data frame, a JSON body value or a bound parameter
    can be.  A float is carried as its 64-bit pattern. *)

Inductive value : Type :=
| VNull
| VBool (b : bool)
| VInt (z : Z)
| VFloat (bits : Z)
| VStr (s : string).

(** [isinstance(value, str)] *)
Definition is_str (v : value) : bool :=
  match v with VStr _ => true | _ => false end.

Definition value_eqb (a b : value) : bool :=
  match a, b with
  | VNull, VNull => true
  | VBool x, VBool y => Bool.eqb x y
  | VInt x, VInt y => Z.eqb x y
  | VFloat x, VFloat y => Z.eqb x y
  | VStr x, VStr y => String.eqb x y
  | _, _ => false
  end.

(** ** Python dictionaries as association lists in insertion order *)

Definition dict (V : Type) : Type := list (string * V).

Fixpoint dict_get {V} (d : dict V) (k : string) : option V :=
  match d with
  | [] => None
  | (k', v) :: r => if String.eqb k' k then Some v else dict_get r k
  end.

(** [d[k] = v]: an existing key keeps its position, a new key goes last. *)
Fixpoint dict_set {V} (d : dict V) (k : string) (v : V) : dict V :=
  match d with
  | [] => [(k, v)]
  | (k', v') :: r =>
      if String.eqb k' k then (k', v) :: r else (k', v') :: dict_set r k v
  end.

Definition keys {V} (d : dict V) : list string := map fst d.

Definition mem (k : string) (ks : list string) : bool :=
  existsb (String.eqb k) ks.

Fixpoint count_occ_str (ks : list string) (k : string) : nat :=
  match ks with
  | [] => 0
  | k' :: r => (if String.eqb k' k then 1 else 0) + count_occ_str r k
  end.

Fixpoint nodup_str (ks : list string) : bool :=
  match ks with
  | [] => true
  | k :: r => negb (mem k r) && nodup_str r
  end.

(** ** Exceptions *)

(** What the store answers when it refuses a statement. *)
Inductive store_error : Type :=
| SyntaxError
| UndefinedTable
| UndefinedColumn (c : string)
| DuplicateColumn
| UniqueViolation
| NotAccepted (c : string)
| MissingParameter (p : string).

Inductive exn : Type :=
| ValueError (msg : string)
| AttributeError (msg : string)
| EmptyDataError (msg : string)
| DbError (e : store_error).

Definition lift_store {A} (m : result store_error A) : result exn A :=
  match m with
  | Ok a => Ok a
  | Err e => Err (DbError e)
  end.

(** ** The data frame read from the CSV file

    [df_columns] pairs every label of [df.columns] with [str] of the
    dtype of that column; [df_rows] are the rows in file order, each one
    what [tuple(row)] gives in [iterrows]. *)

Record DataFrame : Type := mkDataFrame {
  df_columns : list (string * string);
  df_rows : list (list value)
}.

Definition columns (df : DataFrame) : list string := map fst (df_columns df).

(** [df.empty]: some axis has length zero. *)
Definition df_empty (df : DataFrame) : bool :=
  match df_columns df, df_rows df with
  | [], _ => true
  | _, [] => true
  | _, _ => false
  end.

(** Every row has one value per column. *)
Definition df_wf (df : DataFrame) : bool :=
  forallb (fun r => Nat.eqb (List.length r) (List.length (df_columns df)))
          (df_rows df).

(** [str(df[column].dtype)].  With a repeated label [df[column]] is a
    frame, which has no [dtype] attribute. *)
Definition column_dtype (df : DataFrame) (column : string) : result exn string :=
  match dict_get (df_columns df) column with
  | None => Err (AttributeError "KeyError")
  | Some dt =>
      if Nat.eqb (count_occ_str (columns df) column) 1 then Ok dt
      else Err (AttributeError "'DataFrame' object has no attribute 'dtype'")
  end.

(** ** Type inferencer: [dtype_mapping] of [_create_table_with_id] *)

Inductive pg_type : Type := INTEGER | NUMERIC | TEXT | TIMESTAMP | BOOLEAN.

Definition pg_type_name (t : pg_type) : string :=
  match t with
  | INTEGER => "INTEGER"
  | NUMERIC => "NUMERIC"
  | TEXT => "TEXT"
  | TIMESTAMP => "TIMESTAMP"
  | BOOLEAN => "BOOLEAN"
  end.

Definition dtype_mapping : dict pg_type :=
  [ ("int64", INTEGER);
    ("float64", NUMERIC);
    ("object", TEXT);
    ("datetime64[ns]", TIMESTAMP);
    ("bool", BOOLEAN) ].

(** [dtype_mapping.get(dtype, 'TEXT')] *)
Definition pg_type_of_dtype (dtype : string) : pg_type :=
  match dict_get dtype_mapping dtype with
  | Some t => t
  | None => TEXT
  end.

(** ** The relational store

    One table, the one [schema.table_name] names.  A record maps every
    column of the table to a value, the synthetic key [_csv_import_id_]
    first.  Identifiers are compared by their exact name, which is what
    the double quotes around every interpolated column name ask of the
    store. *)

Definition pk_col : string := "_csv_import_id_".

Definition record : Type := dict value.

Record table : Type := mkTable {
  t_columns : list (string * pg_type);
  t_serial : Z;
  t_rows : list record
}.

Definition db : Type := option table.

Definition all_columns (t : table) : list string := pk_col :: map fst (t_columns t).

Definition record_id (r : record) : option Z :=
  match dict_get r pk_col with
  | Some (VInt z) => Some z
  | _ => None
  end.

Definition id_is (z : Z) (r : record) : bool :=
  match record_id r with
  | Some y => Z.eqb y z
  | None => false
  end.

Definition has_id (rows : list record) (z : Z) : bool := existsb (id_is z) rows.

Definition get_table (d : db) : result store_error table :=
  match d with
  | Some t => Ok t
  | None => Err UndefinedTable
  end.

(** [DROP TABLE IF EXISTS] *)
Definition store_drop (d : db) : db := None.

(** [CREATE TABLE IF NOT EXISTS t (_csv_import_id_ SERIAL PRIMARY KEY, defs)]:
    an existing table is kept as it is. *)
Definition store_create (d : db) (defs : list (string * pg_type)) : result store_error db :=
  match d with
  | Some t => Ok (Some t)
  | None =>
      if nodup_str (pk_col :: map fst defs)
      then Ok (Some (mkTable defs 1 []))
      else Err DuplicateColumn
  end.

Section Store.

(** How the store reads a bound value for a column of a given type:
    [None] when it refuses it, otherwise the value it stores or compares
    with. *)
Variable coerce : pg_type -> value -> option value.

Definition column_type (t : table) (c : string) : option pg_type :=
  if String.eqb c pk_col then Some INTEGER else dict_get (t_columns t) c.

(** The value column [c] takes for [v]; the key column is an integer and
    is never null. *)
Definition coerce_cell (t : table) (c : string) (v : value) : result store_error value :=
  match column_type t c with
  | None => Err (UndefinedColumn c)
  | Some ty =>
      match coerce ty v with
      | None => Err (NotAccepted c)
      | Some v' =>
          if String.eqb c pk_col then
            match v' with
            | VInt _ => Ok v'
            | _ => Err (NotAccepted c)
            end
          else Ok v'
      end
  end.

Fixpoint coerce_all (t : table) (given : dict value) : result store_error (dict value) :=
  match given with
  | [] => Ok []
  | (c, v) :: rest =>
      v' <- coerce_cell t c v ;;
      rest' <- coerce_all t rest ;;
      Ok ((c, v') :: rest')
  end.

(** The record an [INSERT] of [given] builds: the key is the given one or
    the next of the sequence, a column that is not listed is null. *)
Definition new_record (t : table) (given : dict value) (id : Z) : record :=
  (pk_col, VInt id) ::
  map (fun cd => (fst cd, match dict_get given (fst cd) with
                          | Some v => v
                          | None => VNull
                          end)) (t_columns t).

(** [INSERT INTO t (cols) VALUES (vals) RETURNING *] *)
Definition store_insert (d : db) (cols : list string) (vals : list value)
  : result store_error (db * record) :=
  t <- get_table d ;;
  if orb (Nat.eqb (List.length cols) 0)
         (negb (Nat.eqb (List.length cols) (List.length vals)))
  then Err SyntaxError
  else if negb (nodup_str cols) then Err DuplicateColumn
  else
    given <- coerce_all t (combine cols vals) ;;
    let '(id, serial) :=
      match dict_get given pk_col with
      | Some (VInt z) => (z, t_serial t)
      | _ => (t_serial t, (t_serial t + 1)%Z)
      end in
    if has_id (t_rows t) id then Err UniqueViolation
    else
      let r := new_record t given id in
      Ok (Some (mkTable (t_columns t) serial (t_rows t ++ [r])), r).

(** ** [CsvDataIngestion] *)

Record CsvDataIngestion : Type := mkIngestion {
  schema : string;
  table_name : option string;
  append : bool;
  df : option DataFrame
}.

(** A connection: the store and the statements executed on it so far,
    each with the parameter tuple bound to it. *)
Record conn : Type := mkConn {
  c_db : db;
  c_log : list (string * list value)
}.

Definition logged (c : conn) (d : db) (q : string) (params : list value) : conn :=
  mkConn d (c_log c ++ [(q, params)]).

(** [{self.schema}.{self.table_name}]; [None] formats as its name. *)
Definition qualified (self : CsvDataIngestion) : string :=
  schema self ^^ "." ^^
  match table_name self with Some n => n | None => "None" end.

Definition _drop_table_if_exists (self : CsvDataIngestion) (c : conn) : conn :=
  let drop_query := "DROP TABLE IF EXISTS " ^^ qualified self in
  logged c (store_drop (c_db c)) drop_query [].

(** One turn of the loop of [_create_table_with_id] over
    [self.df.columns]. *)
Definition definitions_step (d : DataFrame) (acc : result exn (list string))
    (column : string) : result exn (list string) :=
  defs <- acc ;;
  dtype <- column_dtype d column ;;
  Ok (defs ++ [quoted column ^^ " " ^^ pg_type_name (pg_type_of_dtype dtype)]).

Definition column_definitions (d : DataFrame) : result exn (list string) :=
  fold_left (definitions_step d) (columns d)
            (Ok ["_csv_import_id_ SERIAL PRIMARY KEY"]).

(** Lines 54-75: the guard and the statement text. *)
Definition create_table_query (self : CsvDataIngestion) : result exn string :=
  match df self with
  | None => Err (ValueError "No data loaded from CSV")
  | Some d =>
      if df_empty d then Err (ValueError "No data loaded from CSV")
      else
        defs <- column_definitions d ;;
        Ok (nl ^^ spaces 12 ^^ "CREATE TABLE IF NOT EXISTS " ^^ qualified self ^^ " (" ^^
            nl ^^ spaces 16 ^^ join ", " defs ^^
            nl ^^ spaces 12 ^^ ")" ^^
            nl ^^ spaces 8)
  end.

(** The columns the creation statement declares, as the store reads them. *)
Definition descriptors (d : DataFrame) : list (string * pg_type) :=
  map (fun cd => (fst cd, pg_type_of_dtype (snd cd))) (df_columns d).

Definition _create_table_with_id (self : CsvDataIngestion) (c : conn) : result exn conn :=
  q <- create_table_query self ;;
  match df self with
  | None => Err (ValueError "No data loaded from CSV")
  | Some d =>
      d' <- lift_store (store_create (c_db c) (descriptors d)) ;;
      Ok (logged c d' q [])
  end.

(** The statement text of [_insert_data]. *)
Definition insert_query (self : CsvDataIngestion) (cols : list string) : string :=
  let placeholders := join "," (repeat "%s" (List.length cols)) in
  let columns_str := join "," (map quoted cols) in
  nl ^^ spaces 16 ^^ "INSERT INTO " ^^ qualified self ^^ " " ^^
  nl ^^ spaces 16 ^^ "(" ^^ columns_str ^^ ") " ^^
  nl ^^ spaces 16 ^^ "VALUES (" ^^ placeholders ^^ ")" ^^
  nl ^^ spaces 12.

(** [cur.execute(insert_query, tuple(row))] *)
Definition cur_execute_insert (c : conn) (q : string) (cols : list string)
    (row : list value) : result exn conn :=
  dr <- lift_store (store_insert (c_db c) cols row) ;;
  Ok (logged c (fst dr) q row).

(** The loop of [_insert_data] over [self.df.iterrows()]. *)
Definition insert_loop (q : string) (cols : list string) (rows : list (list value))
    (start : result exn conn) : result exn conn :=
  fold_left (fun acc row => c' <- acc ;; cur_execute_insert c' q cols row)
            rows start.

(** The rows are inserted one at a time on one connection, committed
    after the loop: an exception leaves the store as it was. *)
Definition _insert_data (self : CsvDataIngestion) (c : conn) : result exn conn :=
  match df self with
  | None => Err (AttributeError "'CsvDataIngestion' object has no attribute 'df'")
  | Some d =>
      if df_empty d then Ok c
      else
        let cols := columns d in
        match cols with
        | [] => Ok c
        | _ :: _ =>
            let q := insert_query self cols in
            insert_loop q cols (df_rows d) (Ok c)
        end
  end.

(** The constructor.  [csv] is what the reader made of [csv_path],
    [None] without a path.  The result is the connection after the last
    committed step and the exception that ended the run, if any. *)
Definition __init__ (schema_ : string) (table_name_ : option string) (append_ : bool)
    (csv : option DataFrame) (c : conn) : conn * option exn :=
  match csv with
  | None => (c, None)
  | Some d =>
      if df_empty d then (c, Some (EmptyDataError "CSV file is empty"))
      else
        let self := mkIngestion schema_ table_name_ append_ (Some d) in
        let c1 := if append_ then c else _drop_table_if_exists self c in
        match _create_table_with_id self c1 with
        | Err e => (c1, Some e)
        | Ok c2 =>
            match _insert_data self c2 with
            | Err e => (c2, Some e)
            | Ok c3 => (c3, None)
            end
        end
  end.


(** ** Compiled predicates

    A comparison the predicate compilers emit, with the f-string that
    prints it.  The placeholder is [%s] in [search_data] and a named
    [:param_i] in [build_where_clause]. *)

Inductive placeholder : Type :=
| Positional
| Named (name : string).

Inductive clause : Type :=
| LowerEq (col : string) (p : placeholder)
| DirectEq (col : string) (p : placeholder).

Definition render_placeholder (p : placeholder) : string :=
  match p with
  | Positional => "%s"
  | Named n => ":" ^^ n
  end.

Definition render_clause (cl : clause) : string :=
  match cl with
  | LowerEq col p => "LOWER(" ^^ quoted col ^^ ") = LOWER(" ^^ render_placeholder p ^^ ")"
  | DirectEq col p => quoted col ^^ " = " ^^ render_placeholder p
  end.

Definition clause_col (cl : clause) : string :=
  match cl with LowerEq c _ | DirectEq c _ => c end.

Definition clause_placeholder (cl : clause) : placeholder :=
  match cl with LowerEq _ p | DirectEq _ p => p end.

(** [f" {operator} ".join(where_clauses)] *)
Definition where_statement (operator : string) (where_clauses : list clause) : string :=
  join (" " ^^ operator ^^ " ") (map render_clause where_clauses).

(** *** How the store evaluates a WHERE clause *)

(** Positional placeholders take the parameters in order, named ones by
    name. *)
Fixpoint bind_params (cls : list clause) (positional : list value) (named : dict value)
  : result store_error (list (clause * value)) :=
  match cls with
  | [] => Ok []
  | cl :: rest =>
      match clause_placeholder cl with
      | Positional =>
          match positional with
          | [] => Err SyntaxError
          | v :: vs =>
              r <- bind_params rest vs named ;;
              Ok ((cl, v) :: r)
          end
      | Named n =>
          match dict_get named n with
          | None => Err (MissingParameter n)
          | Some v =>
              r <- bind_params rest positional named ;;
              Ok ((cl, v) :: r)
          end
      end
  end.

(** The test a bound comparison makes on a record, or the error the
    store raises when it analyses it: an unknown column, [LOWER] of a
    column that is not text, a value the column type refuses.  A null
    on either side is never equal. *)
Definition prepare (t : table) (cv : clause * value) : result store_error (record -> bool) :=
  let col := clause_col (fst cv) in
  match column_type t col with
  | None => Err (UndefinedColumn col)
  | Some ty =>
      match fst cv with
      | LowerEq _ _ =>
          match ty, snd cv with
          | TEXT, VStr b =>
              Ok (fun r => match dict_get r col with
                           | Some (VStr a) => String.eqb (lower a) (lower b)
                           | _ => false
                           end)
          | TEXT, VNull => Ok (fun _ => false)
          | _, _ => Err (NotAccepted col)
          end
      | DirectEq _ _ =>
          match coerce ty (snd cv) with
          | None => Err (NotAccepted col)
          | Some VNull => Ok (fun _ => false)
          | Some p =>
              Ok (fun r => match dict_get r col with
                           | Some VNull | None => false
                           | Some cell => value_eqb cell p
                           end)
          end
      end
  end.

Fixpoint prepare_all (t : table) (cvs : list (clause * value))
  : result store_error (list (record -> bool)) :=
  match cvs with
  | [] => Ok []
  | cv :: rest =>
      f <- prepare t cv ;;
      fs <- prepare_all t rest ;;
      Ok (f :: fs)
  end.

(** The keyword joining the comparisons; the store reads keywords in
    either case.  [true] is AND. *)
Definition combinator (operator : string) : option bool :=
  if String.eqb (lower operator) "and" then Some true
  else if String.eqb (lower operator) "or" then Some false
  else None.

Definition matches (conj : bool) (tests : list (record -> bool)) (r : record) : bool :=
  if conj then forallb (fun f => f r) tests else existsb (fun f => f r) tests.

(** [SELECT * FROM t WHERE cls LIMIT limit]: the statement is parsed and
    analysed before any row is looked at. *)
Definition store_select (d : db) (cls : list clause) (operator : string)
    (positional : list value) (named : dict value) (limit : option nat)
  : result store_error (list record) :=
  conj <- match cls with
          | [] => Err SyntaxError
          | [_] => Ok true
          | _ => match combinator operator with
                 | Some b => Ok b
                 | None => Err SyntaxError
                 end
          end ;;
  t <- get_table d ;;
  cvs <- bind_params cls positional named ;;
  tests <- prepare_all t cvs ;;
  let hits := filter (matches conj tests) (t_rows t) in
  Ok match limit with
     | Some n => firstn n hits
     | None => hits
     end.

(** ** [CsvDataIngestion.search_data] *)

(** The loop over [conditions.items()]: the clauses and the parameter
    list grow together. *)
Definition search_clauses (conditions : dict value) (case_sensitive : bool)
  : list clause * list value :=
  fold_left
    (fun st cv =>
       let '(where_clauses, params) := st in
       let '(col, v) := cv in
       ((if is_str v && negb case_sensitive
         then where_clauses ++ [LowerEq col Positional]
         else where_clauses ++ [DirectEq col Positional]),
        params ++ [v]))
    conditions ([], []).

Definition is_nil {A} (l : list A) : bool :=
  match l with [] => true | _ => false end.

(** [not self.table_name] *)
Definition no_table (self : CsvDataIngestion) : bool :=
  match table_name self with
  | None => true
  | Some n => String.eqb n EmptyString
  end.

(** Lines 119-140: the guards, the WHERE fragment and the parameters. *)
Definition search_query (self : CsvDataIngestion) (conditions : dict value)
    (operator : string) (case_sensitive : bool)
  : result exn (list clause * string * list value) :=
  if no_table self then Err (ValueError "No table selected for searching")
  else if is_nil conditions then Err (ValueError "No search conditions provided")
  else
    let '(where_clauses, params) := search_clauses conditions case_sensitive in
    Ok (where_clauses, where_statement operator where_clauses, params).

Definition search_sql (self : CsvDataIngestion) (fragment : string) : string :=
  nl ^^ spaces 12 ^^ "SELECT * " ^^
  nl ^^ spaces 12 ^^ "FROM " ^^ qualified self ^^ " " ^^
  nl ^^ spaces 12 ^^ "WHERE " ^^ fragment ^^
  nl ^^ spaces 8.

Definition search_data (self : CsvDataIngestion) (d : db) (conditions : dict value)
    (operator : string) (case_sensitive : bool) : result exn (list record) :=
  q <- search_query self conditions operator case_sensitive ;;
  let '(where_clauses, _, params) := q in
  lift_store (store_select d where_clauses operator params [] None).

(** ** More of the store: delete and update by key *)

Definition ids_of (rows : list record) : list Z :=
  flat_map (fun r => match record_id r with Some z => [z] | None => [] end) rows.

Definition id_in (ids : list Z) (r : record) : bool :=
  existsb (fun z => id_is z r) ids.

(** [DELETE FROM t WHERE _csv_import_id_ IN (ids) RETURNING _csv_import_id_];
    an empty list between the parentheses does not parse. *)
Definition store_delete (d : db) (ids : list Z) : result store_error (db * list Z) :=
  match ids with
  | [] => Err SyntaxError
  | _ :: _ =>
      t <- get_table d ;;
      let gone := filter (id_in ids) (t_rows t) in
      let kept := filter (fun r => negb (id_in ids r)) (t_rows t) in
      Ok (Some (mkTable (t_columns t) (t_serial t) kept), ids_of gone)
  end.

(** [SELECT * FROM t WHERE _csv_import_id_ = id] *)
Definition store_get (d : db) (id : Z) : result store_error (list record) :=
  t <- get_table d ;;
  Ok (filter (id_is id) (t_rows t)).

(** A name the statement text can carry after a colon: letters, digits
    and underscores. *)
Definition word_char (c : ascii) : bool :=
  let n := nat_of_ascii c in
  (Nat.leb 48 n && Nat.leb n 57) || (Nat.leb 65 n && Nat.leb n 90) ||
  (Nat.leb 97 n && Nat.leb n 122) || Nat.eqb n 95.

Fixpoint all_word (s : string) : bool :=
  match s with
  | EmptyString => true
  | String c r => word_char c && all_word r
  end.

Definition bindable (name : string) : bool :=
  negb (String.eqb name EmptyString) && all_word name.

Definition apply_sets (r : record) (given : dict value) : record :=
  fold_left (fun acc cv => dict_set acc (fst cv) (snd cv)) given r.

(** The values the assignments [col = :name] take from the parameters. *)
Fixpoint bind_sets (sets : list (string * string)) (params : dict value)
  : result store_error (dict value) :=
  match sets with
  | [] => Ok []
  | (col, name) :: rest =>
      match dict_get params name with
      | None => Err (MissingParameter name)
      | Some v =>
          r <- bind_sets rest params ;;
          Ok ((col, v) :: r)
      end
  end.

(** [UPDATE t SET sets WHERE _csv_import_id_ = :key RETURNING *] *)
Definition store_update (d : db) (sets : list (string * string)) (key : string)
    (params : dict value) : result store_error (db * list record) :=
  if is_nil sets then Err SyntaxError
  else if negb (forallb (fun s => bindable (snd s)) sets) then Err SyntaxError
  else if negb (nodup_str (map fst sets)) then Err DuplicateColumn
  else
    t <- get_table d ;;
    given0 <- bind_sets sets params ;;
    given <- coerce_all t given0 ;;
    match dict_get params key with
    | Some (VInt id) =>
        let clash :=
          match dict_get given pk_col with
          | Some (VInt z) => negb (Z.eqb z id) && has_id (t_rows t) z
          | _ => false
          end in
        if clash && has_id (t_rows t) id then Err UniqueViolation
        else
          let rows' := map (fun r => if id_is id r then apply_sets r given else r)
                           (t_rows t) in
          let hit := map (fun r => apply_sets r given) (filter (id_is id) (t_rows t)) in
          Ok (Some (mkTable (t_columns t) (t_serial t) rows'), hit)
    | Some _ => Err (NotAccepted pk_col)
    | None => Err (MissingParameter key)
    end.

(** ** [app.py]: the record gateway *)

Inductive detail : Type :=
| Message (s : string)
| StrOf (e : exn).

Inductive http_error : Type :=
| HTTPException (status_code : nat) (detail_ : detail).

(** [except Exception as e: raise HTTPException(400, str(e))] *)
Definition or_400 {A} (m : result store_error A) : result http_error A :=
  match m with
  | Ok a => Ok a
  | Err e => Err (HTTPException 400 (StrOf (DbError e)))
  end.

(** [enumerate(xs)], counting from [start]. *)
Fixpoint enumerate {A} (start : nat) (xs : list A) : list (nat * A) :=
  match xs with
  | [] => []
  | x :: r => (start, x) :: enumerate (S start) r
  end.

(** The loop of [build_where_clause] over [enumerate(conditions.items())]. *)
Definition build_where_clauses (conditions : dict value) (case_sensitive : bool)
  : list clause * dict value :=
  fold_left
    (fun st ix =>
       let '(where_clauses, params) := st in
       let '(idx, (col, v)) := ix in
       let param_name := "param_" ^^ str_of_nat idx in
       ((if is_str v && negb case_sensitive
         then where_clauses ++ [LowerEq col (Named param_name)]
         else where_clauses ++ [DirectEq col (Named param_name)]),
        dict_set params param_name v))
    (enumerate 0 conditions) ([], []).

Definition build_where_clause (conditions : dict value) (operator : string)
    (case_sensitive : bool) : string * dict value :=
  let '(where_clauses, params) := build_where_clauses conditions case_sensitive in
  (where_statement operator where_clauses, params).

(** [Query(10, ge=1, le=100)] *)
Definition limit_ok (limit : Z) : bool := (1 <=? limit)%Z && (limit <=? 100)%Z.

Definition query_by_text (d : db) (conditions : dict value) (operator : string)
    (case_sensitive : bool) (limit : Z) : result http_error (list record) :=
  if negb (limit_ok limit) then Err (HTTPException 422 (Message "limit"))
  else
    let '(where_clauses, params0) := build_where_clauses conditions case_sensitive in
    let params := dict_set params0 "limit" (VInt limit) in
    or_400 (store_select d where_clauses operator [] params (Some (Z.to_nat limit))).

(** [','.join(str(id) for id in request.ids)] *)
Definition ids_str (ids : list Z) : string := join "," (map str_of_Z ids).

Definition delete_sql (qualified_name : string) (ids : list Z) : string :=
  nl ^^ spaces 12 ^^ "DELETE FROM " ^^ qualified_name ^^
  nl ^^ spaces 12 ^^ "WHERE _csv_import_id_ IN (" ^^ ids_str ids ^^ ")" ^^
  nl ^^ spaces 12 ^^ "RETURNING _csv_import_id_" ^^
  nl ^^ spaces 8.

(** The response body [{"deleted_ids": deleted_ids}] is its list. *)
Definition delete_items (d : db) (ids : list Z) : db * result http_error (list Z) :=
  match store_delete d ids with
  | Ok (d', deleted_ids) => (d', Ok deleted_ids)
  | Err e => (d, Err (HTTPException 400 (StrOf (DbError e))))
  end.

Definition get_item (d : db) (item_id : Z) : result http_error record :=
  if (item_id <? 1)%Z then Err (HTTPException 422 (Message "item_id"))
  else
    rows <- or_400 (store_get d item_id) ;;
    match rows with
    | [] => Err (HTTPException 404 (Message "Item not found"))
    | r :: _ => Ok r
    end.

(** [", ".join(f'"{k}" = :{k}' for k in update_data.columns.keys())] *)
Definition set_clause (cols : dict value) : string :=
  join ", " (map (fun k => quoted k ^^ " = :" ^^ k) (keys cols)).

Definition update_item (d : db) (item_id : Z) (cols : dict value)
  : db * result http_error record :=
  if (item_id <? 1)%Z then (d, Err (HTTPException 422 (Message "item_id")))
  else
    let sets := map (fun k => (k, k)) (keys cols) in
    let params := dict_set cols "item_id" (VInt item_id) in
    match store_update d sets "item_id" params with
    | Err e => (d, Err (HTTPException 400 (StrOf (DbError e))))
    | Ok (_, []) => (d, Err (HTTPException 404 (Message "Item not found")))
    | Ok (d', updated_row :: _) => (d', Ok updated_row)
    end.

End Store.

(** ** The column type of an observed column

    The reader of the CSV file decides the dtype of a column from its
    fields; [_create_table_with_id] maps the name of that dtype. *)
Definition inferred_type (infer_dtype : list string -> string) (fields : list string)
  : pg_type :=
  pg_type_of_dtype (infer_dtype fields).

(** ** Instances used in the examples *)

(** A store reading: nulls go anywhere, integers fit 32 bits, text
    columns take text. *)
Definition pg_coerce (ty : pg_type) (v : value) : option value :=
  match ty, v with
  | _, VNull => Some VNull
  | INTEGER, VInt z =>
      if ((-2147483648 <=? z) && (z <=? 2147483647))%Z then Some v else None
  | NUMERIC, VInt _ => Some v
  | NUMERIC, VFloat _ => Some v
  | TEXT, VStr _ => Some v
  | TIMESTAMP, VStr _ => Some v
  | BOOLEAN, VBool _ => Some v
  | _, _ => None
  end.

Fixpoint all_digits (s : string) : bool :=
  match s with
  | EmptyString => true
  | String c r =>
      (Nat.leb 48 (nat_of_ascii c) && Nat.leb (nat_of_ascii c) 57) && all_digits r
  end.

Definition integer_literal (s : string) : bool :=
  match s with
  | EmptyString => false
  | String c r =>
      if Ascii.eqb c "-"%char
      then negb (String.eqb r EmptyString) && all_digits r
      else all_digits s
  end.

(** A reader that knows integers and text only. *)
Definition simple_reader (fields : list string) : string :=
  if negb (is_nil fields) && forallb integer_literal fields then "int64" else "object".

(** The frame of the repository's own test, two rows of it. *)
Definition people : DataFrame :=
  mkDataFrame
    [("name", "object"); ("age", "int64"); ("city", "object")]
    [ [VStr "John"; VInt 30; VStr "New York"];
      [VStr "Jane"; VInt 25; VStr "Los Angeles"] ].

Definition fresh : conn := mkConn None [].

Definition people_db : db :=
  c_db (fst (__init__ pg_coerce "public" (Some "csv_data_table01") false (Some people) fresh)).

(** Number of records of the table, none when there is no table. *)
Definition row_count (d : db) : nat :=
  match d with
  | Some t => List.length (t_rows t)
  | None => 0
  end.

(** [d'] is [d] with [n] records added after the ones it had. *)
Definition grows (d d' : db) (n : nat) : Prop :=
  match d, d' with
  | Some t, Some t' =>
      t_columns t' = t_columns t /\
      exists new, t_rows t' = t_rows t ++ new /\ List.length new = n
  | None, None => n = 0
  | _, _ => False
  end.

(** The rows [_insert_data] sends: none of an empty frame. *)
Definition sent_rows (d : DataFrame) : list (list value) :=
  if df_empty d then [] else df_rows d.

(** Every record of the table has a key below the next of the sequence. *)
Definition serial_above (t : table) : Prop :=
  forall z, has_id (t_rows t) z = true -> (z < t_serial t)%Z.

(** The store takes every cell of the frame in the column type the
    schema builder gives its column. *)
Definition accepted (coerce : pg_type -> value -> option value) (d : DataFrame) : bool :=
  forallb
    (fun row =>
       forallb (fun cv => match coerce (pg_type_of_dtype (snd (fst cv))) (snd cv) with
                          | Some _ => true
                          | None => false
                          end)
               (combine (df_columns d) row))
    (df_rows d).

(** One column definition of the creation statement. *)
Definition column_definition (cd : string * string) : string :=
  quoted (fst cd) ^^ " " ^^ pg_type_name (pg_type_of_dtype (snd cd)).

(** The creation statement for the column definitions [defs]. *)
Definition create_sql (self : CsvDataIngestion) (defs : list string) : string :=
  nl ^^ spaces 12 ^^ "CREATE TABLE IF NOT EXISTS " ^^ qualified self ^^ " (" ^^
  nl ^^ spaces 16 ^^ join ", " defs ^^
  nl ^^ spaces 12 ^^ ")" ^^
  nl ^^ spaces 8.

(** A frame with columns and no row: the header of a CSV file alone. *)
Definition header_only : DataFrame := mkDataFrame [("a", "int64")] [].

(** Two frames with the columns of [people] and other values, one of
    them with SQL in a cell. *)
Definition others : DataFrame :=
  mkDataFrame
    [("name", "object"); ("age", "int64"); ("city", "object")]
    [ [VStr "Bob'); DROP TABLE csv_data_table01; --"; VInt 35; VStr "Chicago"] ].

(** The comparison compiled for one entry of the conditions, with
    placeholder [p]. *)
Definition clause_for (case_sensitive : bool) (p : placeholder) (col : string) (v : value)
  : clause :=
  if is_str v && negb case_sensitive then LowerEq col p else DirectEq col p.

(** The record of John in the table of the two people. *)
Definition john : record :=
  [(pk_col, VInt 1); ("name", VStr "John"); ("age", VInt 30); ("city", VStr "New York")].

Definition people_table : CsvDataIngestion :=
  mkIngestion "public" (Some "csv_data_table01") false None.

Definition jane : record :=
  [(pk_col, VInt 2); ("name", VStr "Jane"); ("age", VInt 25); ("city", VStr "Los Angeles")].

(** The table the ingestion of [people] leaves. *)
Definition people_rows : table :=
  mkTable [("name", TEXT); ("age", INTEGER); ("city", TEXT)] 3 [john; jane].

(** A table with a data column named [item_id]. *)
Definition tagged_rows : table :=
  mkTable [("item_id", INTEGER)] 2 [[(pk_col, VInt 1); ("item_id", VInt 7)]].

(** ** The rest of [CsvDataIngestion] and of the gateway *)

(** [SELECT * FROM t LIMIT limit], the limit written into the text: the
    store refuses a negative one when it runs the statement. *)
Definition store_select_all (d : db) (limit : Z) : result store_error (list record) :=
  t <- get_table d ;;
  if (limit <? 0)%Z then Err (NotAccepted "LIMIT")
  else Ok (firstn (Z.to_nat limit) (t_rows t)).

Definition sample_sql (self : CsvDataIngestion) (limit : Z) : string :=
  "SELECT * FROM " ^^ qualified self ^^ " LIMIT " ^^ str_of_Z limit.

(** [CsvDataIngestion.get_sample_data] *)
Definition get_sample_data (self : CsvDataIngestion) (d : db) (limit : Z)
  : result exn (list record) :=
  if no_table self then Err (ValueError "No table selected")
  else lift_store (store_select_all d limit).

(** *** Pattern matching of the store

    [%] stands for any run of characters, [_] for any one character and
    a backslash takes the next character literally.  A pattern that ends
    in a lone backslash matches nothing here; the patterns of
    [query_similar] end in [%]. *)
Definition percent : ascii := ascii_of_nat 37.
Definition underscore : ascii := ascii_of_nat 95.
Definition backslash : ascii := ascii_of_nat 92.

Fixpoint like (p s : string) {struct p} : bool :=
  match p with
  | EmptyString =>
      match s with EmptyString => true | String _ _ => false end
  | String c p' =>
      if Ascii.eqb c percent then
        (fix any (s : string) : bool :=
           like p' s ||
           match s with
           | EmptyString => false
           | String _ s' => any s'
           end) s
      else if Ascii.eqb c underscore then
        match s with
        | EmptyString => false
        | String _ s' => like p' s'
        end
      else if Ascii.eqb c backslash then
        match p' with
        | EmptyString => false
        | String e p'' =>
            match s with
            | EmptyString => false
            | String x s' => Ascii.eqb x e && like p'' s'
            end
        end
      else
        match s with
        | EmptyString => false
        | String x s' => Ascii.eqb x c && like p' s'
        end
  end.

(** [ILIKE] on ASCII text. *)
Definition ilike (p s : string) : bool := like (lower p) (lower s).

(** [SELECT * FROM t WHERE "column" ILIKE :pattern LIMIT :limit] *)
Definition store_ilike (d : db) (column : string) (params : dict value) (limit : nat)
  : result store_error (list record) :=
  t <- get_table d ;;
  match column_type t column with
  | None => Err (UndefinedColumn column)
  | Some TEXT =>
      match dict_get params "pattern" with
      | Some (VStr pattern) =>
          Ok (firstn limit
                (filter (fun r => match dict_get r column with
                                  | Some (VStr s) => ilike pattern s
                                  | _ => false
                                  end) (t_rows t)))
      | Some _ => Err (NotAccepted column)
      | None => Err (MissingParameter "pattern")
      end
  | Some _ => Err (NotAccepted column)
  end.

(** [query_similar] *)
Definition query_similar (d : db) (column value_ : string) (limit : Z)
  : result http_error (list record) :=
  if negb (limit_ok limit) then Err (HTTPException 422 (Message "limit"))
  else
    let params := [("pattern", VStr ("%" ^^ value_ ^^ "%")); ("limit", VInt limit)] in
    or_400 (store_ilike d column params (Z.to_nat limit)).

Section Create.

Variable coerce : pg_type -> value -> option value.

(** [INSERT INTO t (cols) VALUES (:col, ...) RETURNING *], every value
    taken from the parameters by the name of its column. *)
Definition store_insert_named (d : db) (cols : list string) (params : dict value)
  : result store_error (db * record) :=
  if negb (forallb bindable cols) then Err SyntaxError
  else
    given <- bind_sets (map (fun c => (c, c)) cols) params ;;
    store_insert coerce d cols (map snd given).

(** [",".join(f":{col}" for col in columns)] and the quoted columns. *)
Definition values_clause (columns_ : list string) : string :=
  join "," (map (fun col => ":" ^^ col) columns_).

Definition columns_str (columns_ : list string) : string :=
  join "," (map quoted columns_).

(** [create_item] *)
Definition create_item (d : db) (data : dict value) : db * result http_error record :=
  let columns_ := keys data in
  match store_insert_named d columns_ data with
  | Ok (d', new_row) => (d', Ok new_row)
  | Err e => (d, Err (HTTPException 400 (StrOf (DbError e))))
  end.

End Create.

(** The keys of the records are integers, pairwise different, below the
    next value of the sequence, which starts at 1. *)
Definition keys_ok (t : table) : Prop :=
  NoDup (ids_of (t_rows t)) /\
  List.length (ids_of (t_rows t)) = List.length (t_rows t) /\
  serial_above t /\
  (1 <= t_serial t)%Z /\
  (forall z, has_id (t_rows t) z = true -> (1 <= z)%Z).

(** [v] occurs in [s]. *)
Definition substring (v s : string) : Prop :=
  exists pre post, s = pre ^^ v ^^ post.

(** No character of [v] is special in a pattern. *)
Fixpoint plain (v : string) : bool :=
  match v with
  | EmptyString => true
  | String c r =>
      negb (Ascii.eqb c percent) && negb (Ascii.eqb c underscore) &&
      negb (Ascii.eqb c backslash) && plain r
  end.

(** The record a row of the frame becomes under key [id]: every cell as
    the store reads it in the type of its column. *)
Definition stored_row (coerce : pg_type -> value -> option value) (d : DataFrame)
    (id : Z) (row : list value) : record :=
  (pk_col, VInt id) ::
  map (fun cv => (fst (fst cv),
                  match coerce (pg_type_of_dtype (snd (fst cv))) (snd cv) with
                  | Some v' => v'
                  | None => VNull
                  end))
      (combine (df_columns d) row).

(** The records of the rows of the frame, keyed from [start] upwards. *)
Fixpoint stored_rows (coerce : pg_type -> value -> option value) (d : DataFrame)
    (start : Z) (rows : list (list value)) : list record :=
  match rows with
  | [] => []
  | row :: r => stored_row coerce d start row :: stored_rows coerce d (start + 1) r
  end.

(** A frame like [people] with an age no 32-bit column takes. *)
Definition too_old : DataFrame :=
  mkDataFrame
    [("name", "object"); ("age", "int64"); ("city", "object")]
    [ [VStr "Noah"; VInt 3000000000; VStr "Ararat"] ].

(** [f"param_{idx}"] *)
Definition param_name (idx : nat) : string := "param_" ^^ str_of_nat idx.

(** How the store reads the joining keyword of [n] comparisons: none
    does not parse, one needs no keyword. *)
Definition parsed_combinator (n : nat) (operator : string) : result store_error bool :=
  match n with
  | 0 => Err SyntaxError
  | 1 => Ok true
  | _ => match combinator operator with
         | Some b => Ok b
         | None => Err SyntaxError
         end
  end.

(** Two predicates on the same columns, the second with SQL in a value. *)
Definition by_name_and_age : dict value := [("name", VStr "john"); ("age", VInt 30)].
Definition by_name_and_age' : dict value :=
  [("name", VStr "x' OR '1'='1"); ("age", VInt 25)].

(** No backslash in [v]. *)
Fixpoint no_escape (v : string) : bool :=
  match v with
  | EmptyString => true
  | String c r => negb (Ascii.eqb c backslash) && no_escape r
  end.

(** The test [query_similar] asks the store to make on a record. *)
Definition similar (column value_ : string) (r : record) : bool :=
  match dict_get r column with
  | Some (VStr s) => ilike ("%" ^^ value_ ^^ "%") s
  | _ => false
  end.

(** What a step leaves in the store, the log of statements aside. *)
Definition outcome (r : result exn conn) : result exn db :=
  match r with
  | Ok c => Ok (c_db c)
  | Err e => Err e
  end.

Definition run_outcome (r : conn * option exn) : db * option exn :=
  (c_db (fst r), snd r).

(** * Properties *)

Ltac inv H := inversion H; subst; clear H.

(** ** Dictionaries *)

Lemma mem_In k ks : mem k ks = true <-> In k ks.
Proof.
  unfold mem. rewrite existsb_exists. split.
  - intros (x & Hin & Heq). apply String.eqb_eq in Heq. now subst.
  - intros Hin. exists k. split; [assumption | apply String.eqb_refl].
Qed.

Lemma mem_false k ks : mem k ks = false <-> ~ In k ks.
Proof.
  rewrite <- mem_In. destruct (mem k ks); split; intros; congruence.
Qed.

Lemma dict_get_None {V} (d : dict V) k : ~ In k (keys d) -> dict_get d k = None.
Proof.
  induction d as [| [k' v] r IH]; simpl; intros Hn; [reflexivity |].
  destruct (String.eqb_spec k' k) as [-> | Hne]; [exfalso; auto |].
  apply IH. intros Hin. apply Hn. now right.
Qed.

Lemma dict_get_nodup {V} (d : dict V) :
  nodup_str (keys d) = true ->
  forall k v, In (k, v) d -> dict_get d k = Some v.
Proof.
  induction d as [| [k' v'] r IH]; simpl; intros Hnd k v Hin; [contradiction |].
  apply andb_true_iff in Hnd as [Hm Hnd]. apply negb_true_iff, mem_false in Hm.
  destruct Hin as [Heq | Hin].
  - inversion Heq; subst. now rewrite String.eqb_refl.
  - destruct (String.eqb_spec k' k) as [-> | Hne].
    + exfalso. apply Hm. change k with (fst (k, v)). now apply in_map.
    + now apply IH.
Qed.

Lemma dict_get_map {V W} (f : V -> W) (d : dict V) k :
  dict_get (map (fun kv => (fst kv, f (snd kv))) d) k = option_map f (dict_get d k).
Proof.
  induction d as [| [k' v] r IH]; simpl; [reflexivity |].
  destruct (String.eqb k' k); auto.
Qed.


Section TypeInferencer.

Variable infer_dtype : list string -> string.
Variable integer_field : string -> bool.
Variable numeric_field : string -> bool.

(** What the development asks of the reader: a column of integer fields
    is [int64], a column with a field that is not a number is [object]. *)
Hypothesis reader_int :
  forall fields, fields <> [] -> forallb integer_field fields = true ->
                 infer_dtype fields = "int64".
Hypothesis reader_object :
  forall fields, existsb (fun f => negb (numeric_field f)) fields = true ->
                 infer_dtype fields = "object".

Lemma pg_type_of_dtype_unknown dtype :
  dict_get dtype_mapping dtype = None -> pg_type_of_dtype dtype = TEXT.
Proof.
  unfold pg_type_of_dtype. now intros ->.
Qed.

Lemma pg_type_of_dtype_total dtype :
  In (pg_type_of_dtype dtype) [INTEGER; NUMERIC; TEXT; TIMESTAMP; BOOLEAN].
Proof.
  destruct (pg_type_of_dtype dtype); simpl; auto 6.
Qed.


End TypeInferencer.

Lemma simple_reader_int fields :
  fields <> [] -> forallb integer_literal fields = true ->
  simple_reader fields = "int64".
Proof.
  intros Hne Hall. unfold simple_reader. rewrite Hall.
  destruct fields; [contradiction | reflexivity].
Qed.

Lemma simple_reader_object fields :
  existsb (fun f => negb (integer_literal f)) fields = true ->
  simple_reader fields = "object".
Proof.
  intros Hex. unfold simple_reader.
  assert (forallb integer_literal fields = false) as ->.
  { induction fields as [| f r IH]; simpl in *; [discriminate |].
    destruct (integer_literal f); simpl in *; auto. }
  now rewrite andb_false_r.
Qed.


(** ** The schema builder *)

Lemma count_occ_str_ge k ks : In k ks -> 1 <= count_occ_str ks k.
Proof.
  induction ks as [| k' r IH]; simpl; [contradiction |].
  intros [-> | Hin]; [rewrite String.eqb_refl; lia |].
  specialize (IH Hin). lia.
Qed.

Lemma count_occ_str_zero k ks : ~ In k ks -> count_occ_str ks k = 0.
Proof.
  induction ks as [| k' r IH]; simpl; [reflexivity |].
  intros Hn. destruct (String.eqb_spec k' k) as [-> | Hne]; [exfalso; auto |].
  apply IH. auto.
Qed.

Lemma nodup_str_count ks :
  nodup_str ks = true -> forall k, In k ks -> count_occ_str ks k = 1.
Proof.
  induction ks as [| k' r IH]; simpl; intros Hnd k Hin; [contradiction |].
  apply andb_true_iff in Hnd as [Hm Hnd]. apply negb_true_iff, mem_false in Hm.
  destruct (String.eqb_spec k' k) as [-> | Hne].
  - now rewrite count_occ_str_zero.
  - destruct Hin as [Heq | Hin]; [contradiction |]. now apply IH.
Qed.

Lemma nodup_str_false ks :
  nodup_str ks = false -> exists k, In k ks /\ count_occ_str ks k <> 1.
Proof.
  induction ks as [| k' r IH]; simpl; [discriminate |].
  intros H. apply andb_false_iff in H as [H | H].
  - apply negb_false_iff, mem_In in H. exists k'. split; [now left |].
    rewrite String.eqb_refl. apply count_occ_str_ge in H. lia.
  - destruct (IH H) as (k & Hin & Hc). exists k. split; [now right |].
    pose proof (count_occ_str_ge _ _ Hin). destruct (String.eqb k' k); lia.
Qed.

Lemma nodup_str_NoDup ks : nodup_str ks = true <-> NoDup ks.
Proof.
  induction ks as [| k r IH]; simpl.
  - split; [constructor | reflexivity].
  - rewrite andb_true_iff, negb_true_iff, mem_false, IH. split.
    + intros [Hn Hd]. now constructor.
    + intros H. inversion H; subst. now split.
Qed.

Lemma append_inj_l (p a b : string) : p ^^ a = p ^^ b -> a = b.
Proof.
  induction p as [| c p IH]; simpl; intros H; [assumption |].
  inversion H. auto.
Qed.

Lemma append_inj_r (q : ascii) : forall a b : string,
  a ^^ String q EmptyString = b ^^ String q EmptyString -> a = b.
Proof.
  induction a as [| x a IH]; intros [| y b] H; simpl in *.
  - reflexivity.
  - inversion H. destruct b; discriminate.
  - inversion H. destruct a; discriminate.
  - inversion H. f_equal. auto.
Qed.

(** Two names with the same quoted identifier are the same name. *)
Lemma quoted_inj a b : quoted a = quoted b -> a = b.
Proof.
  unfold quoted. intros H. apply append_inj_l in H. now apply append_inj_r in H.
Qed.

Lemma NoDup_quoted ks : NoDup (map quoted ks) <-> NoDup ks.
Proof.
  split.
  - apply NoDup_map_inv.
  - intros H. induction H as [| k r Hn Hd IH]; simpl; constructor; auto.
    intros Hin. apply in_map_iff in Hin as (k' & Hq & Hin).
    apply quoted_inj in Hq. now subst.
Qed.

Lemma definitions_err d cs e :
  fold_left (definitions_step d) cs (Err e) = Err e.
Proof.
  induction cs; simpl; auto.
Qed.

Lemma definitions_ok d : nodup_str (columns d) = true ->
  forall cds acc,
    incl cds (df_columns d) ->
    fold_left (definitions_step d) (map fst cds) (Ok acc)
    = Ok (acc ++ map column_definition cds).
Proof.
  intros Hnd. induction cds as [| [c dt] cds IH]; intros acc Hincl;
    cbn [map fst fold_left].
  - now rewrite app_nil_r.
  - assert (Hin : In (c, dt) (df_columns d)) by (apply Hincl; now left).
    assert (Hstep : definitions_step d (Ok acc) c = Ok (acc ++ [column_definition (c, dt)])).
    { unfold definitions_step, column_dtype. simpl.
      rewrite (dict_get_nodup _ Hnd _ _ Hin).
      rewrite (nodup_str_count _ Hnd c); [reflexivity |].
      change c with (fst (c, dt)). now apply in_map. }
    rewrite Hstep, IH.
    + now rewrite <- app_assoc.
    + intros x Hx. apply Hincl. now right.
Qed.

Lemma definitions_dup d c : forall cs acc,
  In c cs -> count_occ_str (columns d) c <> 1 ->
  exists e, fold_left (definitions_step d) cs acc = Err e.
Proof.
  induction cs as [| c0 cs IH]; intros acc Hin Hc; [contradiction |].
  simpl. destruct Hin as [-> | Hin]; [| now apply IH].
  destruct acc as [defs | e]; simpl.
  - unfold column_dtype. destruct (dict_get (df_columns d) c).
    + apply Nat.eqb_neq in Hc. rewrite Hc. simpl. eexists. apply definitions_err.
    + simpl. eexists. apply definitions_err.
  - eexists. apply definitions_err.
Qed.

Lemma column_definitions_ok d :
  nodup_str (columns d) = true ->
  column_definitions d
  = Ok ("_csv_import_id_ SERIAL PRIMARY KEY" :: map column_definition (df_columns d)).
Proof.
  intros Hnd. unfold column_definitions, columns.
  rewrite (definitions_ok d Hnd); [reflexivity | apply incl_refl].
Qed.

Lemma column_definitions_dup d :
  nodup_str (columns d) = false -> exists e, column_definitions d = Err e.
Proof.
  intros Hnd. apply nodup_str_false in Hnd as (c & Hin & Hc).
  unfold column_definitions.
  now apply (definitions_dup d c).
Qed.



(** ** The bulk loader *)

Section BulkLoader.

Variable coerce : pg_type -> value -> option value.

Lemma store_insert_appends d cols vals d' r :
  store_insert coerce d cols vals = Ok (d', r) ->
  exists t serial,
    d = Some t /\
    d' = Some (mkTable (t_columns t) serial (t_rows t ++ [r])).
Proof.
  unfold store_insert. destruct d as [t |]; simpl; [| discriminate].
  destruct (_ || _); [discriminate |].
  destruct (negb _); [discriminate |].
  destruct (coerce_all coerce t (combine cols vals)) as [given |]; simpl; [| discriminate].
  destruct (match dict_get given pk_col with
            | Some (VInt z) => (z, t_serial t)
            | _ => (t_serial t, (t_serial t + 1)%Z)
            end) as [id serial].
  destruct (has_id (t_rows t) id); [discriminate |].
  intros H. inv H. now exists t, serial.
Qed.

Lemma insert_loop_err q cols rows e : insert_loop coerce q cols rows (Err e) = Err e.
Proof.
  induction rows as [| row rows IH]; simpl; auto.
Qed.

Lemma grows_refl d : grows d d 0.
Proof.
  destruct d as [t |]; simpl; auto. split; auto. exists []. now rewrite app_nil_r.
Qed.

Lemma grows_step d d1 d2 r n cols vals :
  store_insert coerce d cols vals = Ok (d1, r) ->
  grows d1 d2 n -> grows d d2 (S n).
Proof.
  intros Hins Hg. apply store_insert_appends in Hins as (t & serial & -> & ->).
  destruct d2 as [t2 |]; simpl in *; [| contradiction].
  destruct Hg as (Hc & new & Hr & Hn). split; auto.
  exists (r :: new). split; [| simpl; congruence].
  now rewrite Hr, <- app_assoc.
Qed.

(** A run of the loop that ends well has executed one statement per row,
    in order, each with the row as its parameters, and has added one
    record per row. *)
Lemma insert_loop_ok q cols rows : forall c c',
  insert_loop coerce q cols rows (Ok c) = Ok c' ->
  c_log c' = c_log c ++ map (fun row => (q, row)) rows /\
  grows (c_db c) (c_db c') (List.length rows).
Proof.
  induction rows as [| row rows IH]; intros c c' H.
  - simpl in H. inv H. split; [now rewrite app_nil_r | apply grows_refl].
  - unfold insert_loop in H. simpl in H.
    destruct (cur_execute_insert coerce c q cols row) as [c1 | e] eqn:E1.
    + apply IH in H as [Hlog Hg]. unfold cur_execute_insert in E1.
      destruct (store_insert coerce (c_db c) cols row) as [[d1 r] | e] eqn:E2;
        simpl in E1; [| discriminate].
      inv E1. simpl in *. split.
      * now rewrite Hlog, <- app_assoc.
      * eapply grows_step; eauto.
    + fold (insert_loop coerce q cols rows (Err e)) in H.
      rewrite insert_loop_err in H. discriminate.
Qed.

Lemma _insert_data_ok self d c c' :
  df self = Some d ->
  _insert_data coerce self c = Ok c' ->
  c_log c' = c_log c ++ map (fun row => (insert_query self (columns d), row)) (sent_rows d) /\
  grows (c_db c) (c_db c') (List.length (sent_rows d)).
Proof.
  intros Hdf H. unfold _insert_data in H. rewrite Hdf in H. unfold sent_rows.
  destruct (df_empty d) eqn:He.
  - inv H. simpl. split; [now rewrite app_nil_r | apply grows_refl].
  - destruct (columns d) as [| col cols] eqn:Hc.
    + inv H. unfold df_empty, columns in *.
      destruct (df_columns d); [discriminate | discriminate].
    + now apply insert_loop_ok in H.
Qed.

(** C9. Two runs of the bulk loader for frames with the same columns
    send the same statement text for every row, whatever the values: the
    text is built from the table name and the column names, and each row
    travels as the parameter tuple of its statement. *)
Theorem insert_text_from_columns_only :
  forall schema_ table_ append1 append2 d1 d2 c1 c2 c1' c2',
    columns d1 = columns d2 ->
    _insert_data coerce (mkIngestion schema_ table_ append1 (Some d1)) c1 = Ok c1' ->
    _insert_data coerce (mkIngestion schema_ table_ append2 (Some d2)) c2 = Ok c2' ->
    exists q,
      q = insert_query (mkIngestion schema_ table_ append1 None) (columns d1) /\
      c_log c1' = c_log c1 ++ map (fun row => (q, row)) (sent_rows d1) /\
      c_log c2' = c_log c2 ++ map (fun row => (q, row)) (sent_rows d2).
Proof.
  intros schema_ table_ append1 append2 d1 d2 c1 c2 c1' c2' Hcols H1 H2.
  eexists. split; [reflexivity |].
  apply _insert_data_ok with (d := d1) in H1 as [L1 _]; [| reflexivity].
  apply _insert_data_ok with (d := d2) in H2 as [L2 _]; [| reflexivity].
  rewrite <- Hcols in L2. split; [exact L1 | exact L2].
Qed.

(** *** When the loop ends well *)

Lemma coerce_all_columns t1 t2 given :
  t_columns t1 = t_columns t2 ->
  coerce_all coerce t1 given = coerce_all coerce t2 given.
Proof.
  intros Hc. induction given as [| [c v] r IH]; simpl; [reflexivity |].
  unfold coerce_cell, column_type. now rewrite Hc, IH.
Qed.

Lemma coerce_all_keys t : forall given given',
  coerce_all coerce t given = Ok given' -> keys given' = keys given.
Proof.
  induction given as [| [c v] r IH]; simpl; intros given' H.
  - now inv H.
  - destruct (coerce_cell coerce t c v); simpl in H; [| discriminate].
    destruct (coerce_all coerce t r) eqn:E; simpl in H; [| discriminate].
    inv H. simpl. f_equal. now apply IH.
Qed.

Lemma keys_combine {V} (cols : list string) : forall (vals : list V),
  forall k, In k (keys (combine cols vals)) -> In k cols.
Proof.
  induction cols as [| c cols IH]; intros [| v vals] k; simpl; try tauto.
  intros [-> | H]; [now left | right; eauto].
Qed.

Lemma has_id_app rows1 rows2 z :
  has_id (rows1 ++ rows2) z = has_id rows1 z || has_id rows2 z.
Proof.
  unfold has_id. apply existsb_app.
Qed.

Lemma id_is_new_record t given id z :
  id_is z (new_record t given id) = Z.eqb id z.
Proof.
  unfold id_is, record_id, new_record. simpl. reflexivity.
Qed.

Lemma store_insert_succeeds t cols vals given :
  cols <> [] ->
  List.length vals = List.length cols ->
  nodup_str (pk_col :: cols) = true ->
  coerce_all coerce t (combine cols vals) = Ok given ->
  serial_above t ->
  exists t',
    store_insert coerce (Some t) cols vals = Ok (Some t', new_record t given (t_serial t)) /\
    t_columns t' = t_columns t /\
    t_rows t' = t_rows t ++ [new_record t given (t_serial t)] /\
    serial_above t'.
Proof.
  intros Hne Hlen Hnd Hco Habove.
  simpl in Hnd. apply andb_true_iff in Hnd as [Hpk Hnd].
  apply negb_true_iff, mem_false in Hpk.
  unfold store_insert. simpl.
  assert (Nat.eqb (List.length cols) 0 = false) as ->.
  { destruct cols; [contradiction | reflexivity]. }
  rewrite <- Hlen, Nat.eqb_refl, Hnd. simpl. rewrite Hco. simpl.
  assert (dict_get given pk_col = None) as ->.
  { apply dict_get_None. rewrite (coerce_all_keys _ _ _ Hco).
    intros Hin. apply Hpk. eapply keys_combine; eauto. }
  assert (has_id (t_rows t) (t_serial t) = false) as ->.
  { destruct (has_id (t_rows t) (t_serial t)) eqn:E; [| reflexivity].
    apply Habove in E. lia. }
  eexists. split; [reflexivity |]. simpl. repeat split.
  intros z Hz. simpl in *. rewrite has_id_app in Hz. apply orb_true_iff in Hz as [Hz | Hz].
  - apply Habove in Hz. lia.
  - unfold has_id in Hz. simpl in Hz. rewrite orb_false_r, id_is_new_record in Hz.
    apply Z.eqb_eq in Hz. lia.
Qed.

Lemma insert_loop_succeeds q cols rows : forall c t,
  c_db c = Some t ->
  cols <> [] ->
  nodup_str (pk_col :: cols) = true ->
  (forall row, In row rows ->
     List.length row = List.length cols /\
     exists given, coerce_all coerce t (combine cols row) = Ok given) ->
  serial_above t ->
  exists c', insert_loop coerce q cols rows (Ok c) = Ok c'.
Proof.
  induction rows as [| row rows IH]; intros c t Hdb Hne Hnd Hrows Habove.
  - exists c. reflexivity.
  - destruct (Hrows row (or_introl eq_refl)) as (Hlen & given & Hco).
    destruct (store_insert_succeeds t cols row given Hne Hlen Hnd Hco Habove)
      as (t' & Hins & Hcols & _ & Habove').
    unfold insert_loop. simpl. unfold cur_execute_insert at 2.
    rewrite Hdb, Hins. simpl.
    apply (IH _ t'); auto.
    intros row' Hin. destruct (Hrows row' (or_intror Hin)) as (Hl & g & Hg).
    split; [assumption |]. exists g. now rewrite (coerce_all_columns t' t).
Qed.

Lemma grows_row_count d d' n : grows d d' n -> row_count d' = row_count d + n.
Proof.
  destruct d as [t |], d' as [t' |]; simpl; try tauto.
  - intros (_ & new & -> & <-). apply length_app.
  - now intros ->.
Qed.

Lemma store_create_row_count d defs d' :
  store_create d defs = Ok d' -> row_count d' = row_count d.
Proof.
  unfold store_create. destruct d as [t |].
  - intros H. now inv H.
  - destruct (nodup_str _); intros H; now inv H.
Qed.

Lemma coerce_all_accepted t d :
  t_columns t = descriptors d ->
  nodup_str (pk_col :: columns d) = true ->
  forall cds row,
    incl cds (df_columns d) ->
    forallb (fun cv => match coerce (pg_type_of_dtype (snd (fst cv))) (snd cv) with
                       | Some _ => true
                       | None => false
                       end) (combine cds row) = true ->
    exists given, coerce_all coerce t (combine (map fst cds) row) = Ok given.
Proof.
  intros Hcols Hnd. simpl in Hnd. apply andb_true_iff in Hnd as [Hpk Hnd].
  apply negb_true_iff, mem_false in Hpk.
  induction cds as [| [c dt] cds IH]; intros row Hincl Hacc.
  - exists []. reflexivity.
  - destruct row as [| v row]; [exists []; reflexivity |].
    simpl in Hacc. apply andb_true_iff in Hacc as [Hv Hacc].
    assert (Hin : In (c, dt) (df_columns d)) by (apply Hincl; now left).
    assert (Hc : In c (columns d)).
    { change c with (fst (c, dt)). now apply in_map. }
    destruct (IH row) as [given Hg]; [intros x Hx; apply Hincl; now right | assumption |].
    simpl. unfold coerce_cell, column_type.
    destruct (String.eqb_spec c pk_col) as [-> | Hne]; [contradiction |].
    rewrite Hcols. unfold descriptors. rewrite dict_get_map.
    rewrite (dict_get_nodup _ Hnd _ _ Hin). simpl.
    destruct (coerce (pg_type_of_dtype dt) v) as [v' |]; [| discriminate].
    simpl. rewrite Hg. simpl. eauto.
Qed.

Lemma df_nonempty_columns d : df_empty d = false -> columns d <> [].
Proof.
  unfold df_empty, columns. destruct (df_columns d); [discriminate | discriminate].
Qed.


End BulkLoader.



Lemma insert_text_witness :
  exists q c1 c2,
    _insert_data pg_coerce
      (mkIngestion "public" (Some "csv_data_table01") false (Some people))
      (mkConn people_db []) = Ok c1 /\
    _insert_data pg_coerce
      (mkIngestion "public" (Some "csv_data_table01") true (Some others))
      (mkConn people_db []) = Ok c2 /\
    c_log c1 = map (fun row => (q, row)) (df_rows people) /\
    c_log c2 = map (fun row => (q, row)) (df_rows others).
Proof.
  assert (E1 : exists c1, _insert_data pg_coerce
      (mkIngestion "public" (Some "csv_data_table01") false (Some people))
      (mkConn people_db []) = Ok c1) by (vm_compute; eauto).
  assert (E2 : exists c2, _insert_data pg_coerce
      (mkIngestion "public" (Some "csv_data_table01") true (Some others))
      (mkConn people_db []) = Ok c2) by (vm_compute; eauto).
  destruct E1 as [c1 E1], E2 as [c2 E2].
  destruct (insert_text_from_columns_only pg_coerce "public" (Some "csv_data_table01")
              false true people others (mkConn people_db []) (mkConn people_db [])
              c1 c2 eq_refl E1 E2) as (q & Hq & L1 & L2).
  exists q, c1, c2. repeat split; assumption.
Defined.


(** ** Delete-batch *)

Lemma In_ids_of rows z :
  In z (ids_of rows) <-> exists r, In r rows /\ record_id r = Some z.
Proof.
  unfold ids_of. rewrite in_flat_map. split.
  - intros (r & Hin & Hz). exists r. split; [assumption |].
    destruct (record_id r); simpl in Hz; [| contradiction].
    destruct Hz as [-> | []]. reflexivity.
  - intros (r & Hin & Hz). exists r. split; [assumption |].
    rewrite Hz. now left.
Qed.

Lemma id_in_spec ids r :
  id_in ids r = true <-> exists z, In z ids /\ record_id r = Some z.
Proof.
  unfold id_in, id_is. rewrite existsb_exists. split.
  - intros (z & Hin & H). exists z. split; [assumption |].
    destruct (record_id r); [| discriminate]. apply Z.eqb_eq in H. now subst.
  - intros (z & Hin & H). exists z. split; [assumption |].
    rewrite H. apply Z.eqb_refl.
Qed.

Lemma has_id_spec rows z :
  has_id rows z = true <-> exists r, In r rows /\ record_id r = Some z.
Proof.
  unfold has_id, id_is. rewrite existsb_exists. split.
  - intros (r & Hin & H). exists r. split; [assumption |].
    destruct (record_id r); [| discriminate]. apply Z.eqb_eq in H. now subst.
  - intros (r & Hin & H). exists r. split; [assumption |].
    rewrite H. apply Z.eqb_refl.
Qed.

Lemma filter_none {A} (f : A -> bool) (l : list A) :
  filter f (filter (fun x => negb (f x)) l) = [].
Proof.
  induction l as [| x l IH]; simpl; [reflexivity |].
  destruct (f x) eqn:E; simpl; [assumption | now rewrite E].
Qed.

Lemma filter_idem {A} (f : A -> bool) (l : list A) :
  filter f (filter f l) = filter f l.
Proof.
  induction l as [| x l IH]; simpl; [reflexivity |].
  destruct (f x) eqn:E; simpl; [rewrite E; now f_equal | assumption].
Qed.

(** For a list of keys that is not empty, on an existing table, the
    answer holds exactly the requested keys that some record had, those
    records are gone and no other, and the same request again answers
    with the empty list and changes nothing. *)
Lemma delete_items_existing_subset t ids :
  ids <> [] ->
  exists t' deleted_ids,
    delete_items (Some t) ids = (Some t', Ok deleted_ids) /\
    (forall z, In z deleted_ids <-> In z ids /\ has_id (t_rows t) z = true) /\
    t_rows t' = filter (fun r => negb (id_in ids r)) (t_rows t) /\
    delete_items (Some t') ids = (Some t', Ok []).
Proof.
  intros Hne. destruct ids as [| i ids]; [contradiction |].
  eexists. eexists. split; [reflexivity |]. split; [| split].
  - intros z. rewrite In_ids_of, has_id_spec. split.
    + intros (r & Hin & Hz). apply filter_In in Hin as [Hin Hid].
      apply id_in_spec in Hid as (z' & Hz' & Hr). split; [| eauto].
      congruence.
    + intros (Hz & r & Hin & Hr). exists r. split; [| assumption].
      apply filter_In. split; [assumption |]. apply id_in_spec. eauto.
  - reflexivity.
  - unfold delete_items, store_delete.
    cbn [get_table bind t_rows t_columns t_serial].
    rewrite filter_none, filter_idem. reflexivity.
Qed.

(** C10. With an empty list of keys the list between the parentheses of
    [IN (...)] is empty, the statement does not parse, and the operation
    answers with an error (status 400) on every state of the store; it
    does not answer with an empty list of deleted keys. *)
Theorem delete_items_empty_list_fails :
  forall (d : db) (qualified_name : string),
    delete_sql qualified_name []
    = nl ^^ spaces 12 ^^ "DELETE FROM " ^^ qualified_name ^^
      nl ^^ spaces 12 ^^ "WHERE _csv_import_id_ IN ()" ^^
      nl ^^ spaces 12 ^^ "RETURNING _csv_import_id_" ^^
      nl ^^ spaces 8 /\
    delete_items d [] = (d, Err (HTTPException 400 (StrOf (DbError SyntaxError)))) /\
    snd (delete_items d []) <> Ok [].
Proof.
  intros d qualified_name. split; [reflexivity |]. split; [reflexivity |].
  simpl. discriminate.
Qed.

(** C7, at the input where the code leaves the claim: the empty set of
    keys on the table of the two people.  The subset of it that existed
    is empty, and the operation answers with an error instead, the first
    time and the second. *)
Theorem delete_batch_empty_set_is_an_error :
  delete_items people_db [] = (people_db, Err (HTTPException 400 (StrOf (DbError SyntaxError)))) /\
  delete_items (fst (delete_items people_db [])) []
  = (people_db, Err (HTTPException 400 (StrOf (DbError SyntaxError)))).
Proof.
  split; reflexivity.
Qed.

(** ** The predicate compilers *)

Lemma search_clauses_fold cs : forall conditions where_clauses params,
  fold_left
    (fun st cv =>
       let '(where_clauses, params) := st in
       let '(col, v) := cv in
       ((if is_str v && negb cs
         then where_clauses ++ [LowerEq col Positional]
         else where_clauses ++ [DirectEq col Positional]),
        params ++ [v]))
    conditions (where_clauses, params)
  = (where_clauses ++ map (fun cv => clause_for cs Positional (fst cv) (snd cv)) conditions,
     params ++ map snd conditions).
Proof.
  induction conditions as [| [col v] r IH]; intros wc ps; simpl.
  - now rewrite !app_nil_r.
  - rewrite IH. unfold clause_for. simpl.
    destruct (is_str v && negb cs); now rewrite <- !app_assoc.
Qed.

Lemma search_clauses_spec conditions cs :
  search_clauses conditions cs
  = (map (fun cv => clause_for cs Positional (fst cv) (snd cv)) conditions,
     map snd conditions).
Proof.
  unfold search_clauses. now rewrite search_clauses_fold.
Qed.

Lemma build_where_clauses_fold cs : forall ixs where_clauses params,
  fst (fold_left
         (fun st (ix : nat * (string * value)) =>
            let '(where_clauses, params) := st in
            let '(idx, (col, v)) := ix in
            let param_name := "param_" ^^ str_of_nat idx in
            ((if is_str v && negb cs
              then where_clauses ++ [LowerEq col (Named param_name)]
              else where_clauses ++ [DirectEq col (Named param_name)]),
             dict_set params param_name v))
         ixs (where_clauses, params))
  = where_clauses ++
    map (fun ix => clause_for cs (Named ("param_" ^^ str_of_nat (fst ix)))
                              (fst (snd ix)) (snd (snd ix))) ixs.
Proof.
  induction ixs as [| [idx [col v]] r IH]; intros wc ps; simpl.
  - now rewrite app_nil_r.
  - rewrite IH.
    destruct (is_str v && negb cs) eqn:E; rewrite <- app_assoc; simpl;
      unfold clause_for; simpl; now rewrite E.
Qed.

Lemma build_where_clauses_spec conditions cs :
  fst (build_where_clauses conditions cs)
  = map (fun ix => clause_for cs (Named ("param_" ^^ str_of_nat (fst ix)))
                              (fst (snd ix)) (snd (snd ix)))
        (enumerate 0 conditions).
Proof.
  unfold build_where_clauses. now rewrite build_where_clauses_fold.
Qed.

Lemma nth_error_enumerate {A} (xs : list A) : forall start i,
  nth_error (enumerate start xs) i = option_map (pair (start + i)) (nth_error xs i).
Proof.
  induction xs as [| x r IH]; intros start [| i]; simpl; try reflexivity.
  - now rewrite Nat.add_0_r.
  - rewrite IH. simpl. now rewrite Nat.add_succ_r.
Qed.

Lemma build_where_clause_text conditions operator cs :
  fst (build_where_clause conditions operator cs)
  = where_statement operator (fst (build_where_clauses conditions cs)).
Proof.
  unfold build_where_clause. now destruct (build_where_clauses conditions cs).
Qed.

(** C2. Entry [i] of the conditions compiles, in both compilers, to the
    case-folded comparison [LOWER("col") = LOWER(p)] exactly when its
    value is a string and [case_sensitive] is false, and to the direct
    comparison ["col" = p] otherwise.  On a text column the store reads
    the first as equality of the lower-cased texts and the second as
    equality of the texts.  So on the table of the two people a search
    for "john" finds the record of John when it is not case sensitive and
    nothing when it is. *)
Theorem comparison_rule :
  (forall conditions case_sensitive i col v,
      nth_error conditions i = Some (col, v) ->
      nth_error (fst (build_where_clauses conditions case_sensitive)) i
      = Some (if is_str v && negb case_sensitive
              then LowerEq col (Named ("param_" ^^ str_of_nat i))
              else DirectEq col (Named ("param_" ^^ str_of_nat i))) /\
      nth_error (fst (search_clauses conditions case_sensitive)) i
      = Some (if is_str v && negb case_sensitive
              then LowerEq col Positional
              else DirectEq col Positional)) /\
  (forall col p,
      render_clause (LowerEq col p)
      = "LOWER(" ^^ quoted col ^^ ") = LOWER(" ^^ render_placeholder p ^^ ")" /\
      render_clause (DirectEq col p) = quoted col ^^ " = " ^^ render_placeholder p) /\
  (forall coerce t col p (r : record) a b,
      column_type t col = Some TEXT ->
      dict_get r col = Some (VStr a) ->
      (exists test, prepare coerce t (LowerEq col p, VStr b) = Ok test /\
                    test r = String.eqb (lower a) (lower b)) /\
      (coerce TEXT (VStr b) = Some (VStr b) ->
       exists test, prepare coerce t (DirectEq col p, VStr b) = Ok test /\
                    test r = String.eqb a b)) /\
  query_by_text pg_coerce people_db [("name", VStr "john")] "AND" false 10 = Ok [john] /\
  query_by_text pg_coerce people_db [("name", VStr "john")] "AND" true 10 = Ok [] /\
  search_data pg_coerce people_table people_db [("name", VStr "john")] "AND" false
  = Ok [john] /\
  search_data pg_coerce people_table people_db [("name", VStr "john")] "AND" true
  = Ok [].
Proof.
  split; [| split; [| split]].
  - intros conditions cs i col v Hi. split.
    + rewrite build_where_clauses_spec, nth_error_map, nth_error_enumerate, Hi.
      reflexivity.
    + rewrite search_clauses_spec. simpl. now rewrite nth_error_map, Hi.
  - intros col p. split; reflexivity.
  - intros coerce t col p r a b Hty Hcell. split.
    + unfold prepare. simpl. rewrite Hty. eexists. split; [reflexivity |].
      simpl. now rewrite Hcell.
    + intros Hco. unfold prepare. simpl. rewrite Hty, Hco.
      eexists. split; [reflexivity |]. simpl. now rewrite Hcell.
  - repeat split; reflexivity.
Qed.

Lemma comparison_rule_witness :
  nth_error (fst (build_where_clauses [("name", VStr "john"); ("age", VInt 30)] false)) 0
  = Some (LowerEq "name" (Named "param_0")) /\
  nth_error (fst (build_where_clauses [("name", VStr "john"); ("age", VInt 30)] false)) 1
  = Some (DirectEq "age" (Named "param_1")) /\
  nth_error (fst (search_clauses [("name", VStr "john"); ("age", VInt 30)] true)) 0
  = Some (DirectEq "name" Positional).
Proof.
  split; [| split].
  - exact (proj1 (proj1 comparison_rule
                    [("name", VStr "john"); ("age", VInt 30)] false 0 "name" (VStr "john")
                    eq_refl)).
  - exact (proj1 (proj1 comparison_rule
                    [("name", VStr "john"); ("age", VInt 30)] false 1 "age" (VInt 30)
                    eq_refl)).
  - exact (proj2 (proj1 comparison_rule
                    [("name", VStr "john"); ("age", VInt 30)] true 0 "name" (VStr "john")
                    eq_refl)).
Defined.

(** C3, amended. [search_data] raises on an empty conditions mapping.
    Neither compiler looks at the combinator: for conditions that are not
    empty and any operator text, AND, OR or another, each emits the
    comparisons of the entries, in order, joined by that text. *)
Theorem predicate_compiler_errors :
  (forall self operator case_sensitive,
      no_table self = false ->
      search_query self [] operator case_sensitive
      = Err (ValueError "No search conditions provided")) /\
  (forall self conditions operator case_sensitive,
      no_table self = false ->
      conditions <> [] ->
      search_query self conditions operator case_sensitive
      = Ok (map (fun cv => clause_for case_sensitive Positional (fst cv) (snd cv)) conditions,
            join (" " ^^ operator ^^ " ")
                 (map (fun cv => render_clause
                                   (clause_for case_sensitive Positional (fst cv) (snd cv)))
                      conditions),
            map snd conditions)) /\
  (forall conditions operator case_sensitive,
      conditions <> [] ->
      fst (build_where_clause conditions operator case_sensitive)
      = join (" " ^^ operator ^^ " ")
             (map (fun ix => render_clause
                               (clause_for case_sensitive
                                  (Named ("param_" ^^ str_of_nat (fst ix)))
                                  (fst (snd ix)) (snd (snd ix))))
                  (enumerate 0 conditions))).
Proof.
  split; [| split].
  - intros self operator cs Ht. unfold search_query. now rewrite Ht.
  - intros self conditions operator cs Ht Hne. unfold search_query. rewrite Ht.
    destruct conditions as [| cv r]; [contradiction |].
    cbn [is_nil]. rewrite search_clauses_spec. unfold where_statement.
    now rewrite map_map.
  - intros conditions operator cs _.
    rewrite build_where_clause_text, build_where_clauses_spec.
    unfold where_statement. now rewrite map_map.
Qed.

Lemma predicate_compiler_errors_witness :
  search_query people_table [] "AND" false
  = Err (ValueError "No search conditions provided") /\
  fst (build_where_clause [("name", VStr "john"); ("age", VInt 30)] "OR" true)
  = quoted "name" ^^ " = :param_0 OR " ^^ quoted "age" ^^ " = :param_1".
Proof.
  split.
  - exact (proj1 predicate_compiler_errors people_table "AND" false eq_refl).
  - exact (proj2 (proj2 predicate_compiler_errors)
             [("name", VStr "john"); ("age", VInt 30)] "OR" true ltac:(discriminate)).
Defined.

(** C3, as stated, fails on a combinator that is neither AND nor OR:
    both compilers emit a WHERE fragment with it. *)
Lemma combinator_is_not_checked :
  "XOR" <> "AND" /\ "XOR" <> "OR" /\
  search_query people_table [("name", VStr "john"); ("age", VInt 30)] "XOR" false
  = Ok ([LowerEq "name" Positional; DirectEq "age" Positional],
        "LOWER(" ^^ quoted "name" ^^ ") = LOWER(%s) XOR " ^^ quoted "age" ^^ " = %s",
        [VStr "john"; VInt 30]) /\
  build_where_clause [("name", VStr "john"); ("age", VInt 30)] "XOR" false
  = ("LOWER(" ^^ quoted "name" ^^ ") = LOWER(:param_0) XOR " ^^ quoted "age" ^^ " = :param_1",
     [("param_0", VStr "john"); ("param_1", VInt 30)]).
Proof.
  repeat split; try discriminate; reflexivity.
Qed.

(** ** Read-by-predicate *)

Section ReadByPredicate.

Variable coerce : pg_type -> value -> option value.

Lemma bind_params_clauses named : forall cls positional cvs,
  bind_params cls positional named = Ok cvs -> map fst cvs = cls.
Proof.
  induction cls as [| cl cls IH]; intros positional cvs H; simpl in H.
  - now inv H.
  - destruct (clause_placeholder cl).
    + destruct positional as [| v vs]; [discriminate |].
      destruct (bind_params cls vs named) as [r |] eqn:E; simpl in H; [| discriminate].
      inv H. simpl. f_equal. eauto.
    + destruct (dict_get named name); [| discriminate].
      destruct (bind_params cls positional named) as [r |] eqn:E; simpl in H;
        [| discriminate].
      inv H. simpl. f_equal. eauto.
Qed.

Lemma prepare_unknown t cv :
  column_type t (clause_col (fst cv)) = None ->
  prepare coerce t cv = Err (UndefinedColumn (clause_col (fst cv))).
Proof.
  intros H. unfold prepare. now rewrite H.
Qed.

Lemma prepare_all_unknown t : forall cvs cv,
  In cv cvs ->
  column_type t (clause_col (fst cv)) = None ->
  exists e, prepare_all coerce t cvs = Err e.
Proof.
  induction cvs as [| cv0 cvs IH]; intros cv Hin Hty; [contradiction |].
  simpl. destruct Hin as [-> | Hin].
  - rewrite (prepare_unknown _ _ Hty). simpl. eauto.
  - destruct (prepare coerce t cv0); simpl; [| eauto].
    destruct (IH cv Hin Hty) as [e ->]. simpl. eauto.
Qed.

Lemma clause_col_for cs p col v : clause_col (clause_for cs p col v) = col.
Proof.
  unfold clause_for. now destruct (is_str v && negb cs).
Qed.

Lemma keys_enumerate {V} (d : dict V) : forall start,
  map (fun ix => fst (snd ix)) (enumerate start d) = keys d.
Proof.
  induction d as [| kv r IH]; intros start; simpl; [reflexivity |].
  now rewrite IH.
Qed.

Lemma build_where_clauses_cols conditions cs :
  map clause_col (fst (build_where_clauses conditions cs)) = keys conditions.
Proof.
  rewrite build_where_clauses_spec, map_map.
  rewrite <- (keys_enumerate conditions 0). apply map_ext.
  intros ix. apply clause_col_for.
Qed.


End ReadByPredicate.


(** ** Update *)

Lemma dict_get_set {V} (d : dict V) k v k' :
  dict_get (dict_set d k v) k' = if String.eqb k k' then Some v else dict_get d k'.
Proof.
  induction d as [| [k0 v0] r IH]; simpl.
  - reflexivity.
  - destruct (String.eqb_spec k0 k) as [-> | Hne]; simpl.
    + now destruct (String.eqb k k').
    + rewrite IH. destruct (String.eqb_spec k0 k') as [-> | Hne'];
        [| reflexivity].
      destruct (String.eqb_spec k k') as [-> | _]; [contradiction | reflexivity].
Qed.

Lemma apply_sets_other (given : dict value) c : forall r,
  ~ In c (keys given) -> dict_get (apply_sets r given) c = dict_get r c.
Proof.
  unfold apply_sets. induction given as [| [k v] g IH]; intros r Hn; simpl.
  - reflexivity.
  - rewrite IH; [| intros H; apply Hn; now right].
    simpl. rewrite dict_get_set.
    destruct (String.eqb_spec k c) as [-> | _]; [| reflexivity].
    exfalso. apply Hn. now left.
Qed.

Lemma apply_sets_listed (given : dict value) c v : forall r,
  NoDup (keys given) -> In (c, v) given -> dict_get (apply_sets r given) c = Some v.
Proof.
  unfold apply_sets. induction given as [| [k w] g IH]; intros r Hnd Hin; simpl.
  - contradiction.
  - inversion Hnd as [| ? ? Hk Hg]; subst. destruct Hin as [Heq | Hin].
    + inversion Heq; subst.
      change (dict_get (apply_sets (dict_set r c v) g) c = Some v).
      rewrite apply_sets_other by assumption.
      now rewrite dict_get_set, String.eqb_refl.
    + now apply IH.
Qed.

Lemma id_is_apply_sets given z r :
  ~ In pk_col (keys given) -> id_is z (apply_sets r given) = id_is z r.
Proof.
  intros Hn. unfold id_is, record_id. now rewrite apply_sets_other.
Qed.

Lemma filter_map_preserved {A} (f : A -> bool) (g : A -> A) (l : list A) :
  (forall x, f (g x) = f x) ->
  filter f (map (fun x => if f x then g x else x) l) = map g (filter f l).
Proof.
  intros Hfg. induction l as [| x l IH]; simpl; [reflexivity |].
  destruct (f x) eqn:E; simpl.
  - rewrite Hfg, E. simpl. now f_equal.
  - now rewrite E.
Qed.

Lemma bind_sets_own (cols : dict value) (params : dict value) :
  (forall k v, In (k, v) cols -> dict_get params k = Some v) ->
  bind_sets (map (fun k => (k, k)) (keys cols)) params = Ok cols.
Proof.
  induction cols as [| [k v] r IH]; intros H; simpl; [reflexivity |].
  rewrite (H k v (or_introl eq_refl)). rewrite IH; [reflexivity |].
  intros k' v' Hin. apply H. now right.
Qed.

Lemma filter_existsb_false {A} (f : A -> bool) (l : list A) :
  existsb f l = false -> filter f l = [].
Proof.
  induction l as [| x l IH]; simpl; [reflexivity |].
  destruct (f x); simpl; [discriminate | assumption].
Qed.

Lemma filter_existsb_true {A} (f : A -> bool) (l : list A) :
  existsb f l = true -> exists x r, filter f l = x :: r /\ In x l /\ f x = true.
Proof.
  induction l as [| x l IH]; simpl; [discriminate |].
  destruct (f x) eqn:E; simpl.
  - intros _. exists x, (filter f l). auto.
  - intros H. destruct (IH H) as (y & r & Hy & Hin & Hf). exists y, r. auto.
Qed.

Lemma Forall2_map_self {A} (P : A -> A -> Prop) (g : A -> A) (l : list A) :
  (forall x, P x (g x)) -> Forall2 P l (map g l).
Proof.
  intros H. induction l; simpl; constructor; auto.
Qed.

Section Update.

Variable coerce : pg_type -> value -> option value.

Lemma store_update_own_columns t cols given id :
  cols <> [] ->
  NoDup (keys cols) ->
  (forall k, In k (keys cols) -> bindable k = true /\ k <> "item_id" /\ k <> pk_col) ->
  coerce_all coerce t cols = Ok given ->
  store_update coerce (Some t) (map (fun k => (k, k)) (keys cols)) "item_id"
               (dict_set cols "item_id" (VInt id))
  = Ok (Some (mkTable (t_columns t) (t_serial t)
                (map (fun r => if id_is id r then apply_sets r given else r) (t_rows t))),
        map (fun r => apply_sets r given) (filter (id_is id) (t_rows t))).
Proof.
  intros Hne Hnd Hkeys Hco. unfold store_update.
  assert (is_nil (map (fun k => (k, k)) (keys cols)) = false) as ->.
  { destruct cols; [contradiction | reflexivity]. }
  assert (forallb (fun s : string * string => bindable (snd s))
                  (map (fun k => (k, k)) (keys cols)) = true) as ->.
  { apply forallb_forall. intros s Hs. apply in_map_iff in Hs as (k & <- & Hk).
    simpl. now apply Hkeys. }
  rewrite map_map. simpl. rewrite map_id.
  rewrite (proj2 (nodup_str_NoDup _) Hnd). simpl.
  rewrite bind_sets_own.
  2:{ intros k v Hin. rewrite dict_get_set.
      assert (Hk : In k (keys cols)).
      { change k with (fst (k, v)). now apply in_map. }
      destruct (String.eqb_spec "item_id" k) as [<- | _].
      - exfalso. destruct (Hkeys _ Hk) as (_ & Hk' & _). now apply Hk'.
      - apply dict_get_nodup; [now apply nodup_str_NoDup | assumption]. }
  simpl. rewrite Hco. simpl.
  rewrite dict_get_set, String.eqb_refl.
  rewrite (dict_get_None given pk_col).
  2:{ rewrite (coerce_all_keys coerce _ _ _ Hco). intros H.
      destruct (Hkeys _ H) as (_ & _ & Hk'). now apply Hk'. }
  reflexivity.
Qed.


End Update.

Lemma people_db_rows : people_db = Some people_rows.
Proof. reflexivity. Qed.



(** Two inputs the amended C8 leaves aside: an empty mapping gives the
    statement [SET  WHERE], which does not parse; a column named
    [item_id] takes the key of the path, since both use the parameter
    [:item_id]. *)
Example update_item_empty_mapping :
  update_item pg_coerce (Some people_rows) 1 []
  = (Some people_rows, Err (HTTPException 400 (StrOf (DbError SyntaxError)))).
Proof. reflexivity. Qed.

Example update_item_parameter_clash :
  update_item pg_coerce (Some tagged_rows) 1 [("item_id", VInt 99)]
  = (Some (mkTable [("item_id", INTEGER)] 2 [[(pk_col, VInt 1); ("item_id", VInt 1)]]),
     Ok [(pk_col, VInt 1); ("item_id", VInt 1)]).
Proof. reflexivity. Qed.

(** * Further properties *)

(** ** Ingestion *)

Section Ingestion.

Variable coerce : pg_type -> value -> option value.


(** A run under the append policy on an existing table that ends well
    keeps the columns of the table and every record it had, in place,
    and puts one new record per source row after them. *)
Theorem append_keeps_existing_records :
  forall schema_ table_ d t log c',
    df_empty d = false ->
    __init__ coerce schema_ table_ true (Some d) (mkConn (Some t) log) = (c', None) ->
    exists t' new,
      c_db c' = Some t' /\
      t_columns t' = t_columns t /\
      t_rows t' = t_rows t ++ new /\
      List.length new = List.length (df_rows d).
Proof.
  intros schema_ table_ d t log c' Hne H. unfold __init__ in H. rewrite Hne in H.
  set (self := mkIngestion schema_ table_ true (Some d)) in *.
  destruct (_create_table_with_id self (mkConn (Some t) log)) as [c2 | e2] eqn:E2;
    [| discriminate].
  destruct (_insert_data coerce self c2) as [c3 | e3] eqn:E3; [| discriminate].
  inv H. apply _insert_data_ok with (d := d) in E3 as [_ Hg]; [| reflexivity].
  unfold sent_rows in Hg. rewrite Hne in Hg.
  unfold _create_table_with_id in E2.
  destruct (create_table_query self); simpl in E2; [| discriminate].
  inv E2. simpl in Hg. destruct (c_db c') as [t' |]; [| contradiction].
  destruct Hg as (Hc & new & Hr & Hn). exists t', new. auto.
Qed.

End Ingestion.


Lemma append_keeps_existing_witness :
  exists t' new,
    c_db (fst (__init__ pg_coerce "public" (Some "csv_data_table01") true (Some others)
                        (mkConn (Some people_rows) []))) = Some t' /\
    t_rows t' = [john; jane] ++ new /\ List.length new = 1.
Proof.
  assert (E : exists c',
             __init__ pg_coerce "public" (Some "csv_data_table01") true (Some others)
                      (mkConn (Some people_rows) []) = (c', None)) by (vm_compute; eauto).
  destruct E as (c' & E).
  destruct (append_keeps_existing_records pg_coerce _ _ others _ _ _ eq_refl E)
    as (t' & new & Hdb & _ & Hr & Hn).
  rewrite E. exists t', new. auto.
Defined.

Section IngestedRecords.

Variable coerce : pg_type -> value -> option value.

Lemma coerce_all_exact t d :
  t_columns t = descriptors d ->
  nodup_str (pk_col :: columns d) = true ->
  forall cds row,
    incl cds (df_columns d) ->
    forallb (fun cv => match coerce (pg_type_of_dtype (snd (fst cv))) (snd cv) with
                       | Some _ => true
                       | None => false
                       end) (combine cds row) = true ->
    coerce_all coerce t (combine (map fst cds) row)
    = Ok (map (fun cv => (fst (fst cv),
                          match coerce (pg_type_of_dtype (snd (fst cv))) (snd cv) with
                          | Some v' => v'
                          | None => VNull
                          end))
              (combine cds row)).
Proof.
  intros Hcols Hnd. simpl in Hnd. apply andb_true_iff in Hnd as [Hpk Hnd].
  apply negb_true_iff, mem_false in Hpk.
  induction cds as [| [c dt] cds IH]; intros row Hincl Hacc; [reflexivity |].
  destruct row as [| v row]; [reflexivity |].
  simpl in Hacc. apply andb_true_iff in Hacc as [Hv Hacc].
  assert (Hin : In (c, dt) (df_columns d)) by (apply Hincl; now left).
  assert (Hc : In c (columns d)).
  { change c with (fst (c, dt)). now apply in_map. }
  simpl. rewrite IH; [| intros x Hx; apply Hincl; now right | assumption].
  unfold coerce_cell, column_type.
  destruct (String.eqb_spec c pk_col) as [-> | Hne]; [contradiction |].
  rewrite Hcols. unfold descriptors. rewrite dict_get_map.
  rewrite (dict_get_nodup _ Hnd _ _ Hin). simpl.
  destruct (coerce (pg_type_of_dtype dt) v) as [v' |]; [reflexivity | discriminate].
Qed.

Lemma lookup_own_keys (g : dict value) :
  NoDup (keys g) ->
  map (fun k => (k, match dict_get g k with Some v => v | None => VNull end)) (keys g) = g.
Proof.
  induction g as [| [k v] r IH]; intros Hnd; simpl; [reflexivity |].
  inversion Hnd as [| ? ? Hk Hr]; subst. rewrite String.eqb_refl. f_equal.
  rewrite <- (IH Hr) at 2. apply map_ext_in. intros k' Hk'.
  destruct (String.eqb_spec k k') as [-> | _]; [contradiction | reflexivity].
Qed.

Lemma keys_combine_full {V} (cols : list string) : forall (vals : list V),
  List.length vals = List.length cols -> keys (combine cols vals) = cols.
Proof.
  induction cols as [| c cols IH]; intros [| v vals] H; simpl in *;
    try reflexivity; try discriminate.
  f_equal. apply IH. now inversion H.
Qed.

Lemma combine_first_names {A B} (cds : list (string * A)) : forall (row : list B),
  List.length row = List.length cds ->
  map (fun cv => fst (fst cv)) (combine cds row) = map fst cds.
Proof.
  induction cds as [| cd cds IH]; intros [| v row] H; simpl in *;
    try reflexivity; try discriminate.
  f_equal. apply IH. now inversion H.
Qed.

Lemma new_record_stored t d id row :
  t_columns t = descriptors d ->
  NoDup (columns d) ->
  List.length row = List.length (df_columns d) ->
  new_record t
    (map (fun cv => (fst (fst cv),
                     match coerce (pg_type_of_dtype (snd (fst cv))) (snd cv) with
                     | Some v' => v'
                     | None => VNull
                     end))
         (combine (df_columns d) row)) id
  = stored_row coerce d id row.
Proof.
  intros Hcols Hnd Hlen. unfold new_record, stored_row. f_equal.
  set (g := map _ (combine (df_columns d) row)).
  assert (Hk : keys g = columns d).
  { unfold g, keys, columns. rewrite map_map. simpl.
    now apply combine_first_names. }
  rewrite Hcols. unfold descriptors. rewrite map_map. cbn [fst].
  transitivity (map (fun k => (k, match dict_get g k with
                                  | Some v => v
                                  | None => VNull
                                  end)) (keys g)).
  - rewrite Hk. unfold columns. now rewrite map_map.
  - apply lookup_own_keys. now rewrite Hk.
Qed.

Lemma store_insert_exact t cols vals given :
  cols <> [] ->
  List.length vals = List.length cols ->
  nodup_str (pk_col :: cols) = true ->
  coerce_all coerce t (combine cols vals) = Ok given ->
  serial_above t ->
  store_insert coerce (Some t) cols vals
  = Ok (Some (mkTable (t_columns t) (t_serial t + 1)
                (t_rows t ++ [new_record t given (t_serial t)])),
        new_record t given (t_serial t)).
Proof.
  intros Hne Hlen Hnd Hco Habove.
  simpl in Hnd. apply andb_true_iff in Hnd as [Hpk Hnd].
  apply negb_true_iff, mem_false in Hpk.
  unfold store_insert. simpl.
  assert (Nat.eqb (List.length cols) 0 = false) as ->.
  { destruct cols; [contradiction | reflexivity]. }
  rewrite <- Hlen, Nat.eqb_refl, Hnd. simpl. rewrite Hco. simpl.
  assert (dict_get given pk_col = None) as ->.
  { apply dict_get_None. rewrite (coerce_all_keys coerce _ _ _ Hco).
    intros Hin. apply Hpk. eapply keys_combine; eauto. }
  assert (has_id (t_rows t) (t_serial t) = false) as ->.
  { destruct (has_id (t_rows t) (t_serial t)) eqn:E; [| reflexivity].
    apply Habove in E. lia. }
  reflexivity.
Qed.

Lemma serial_above_insert t r :
  serial_above t ->
  record_id r = Some (t_serial t) ->
  serial_above (mkTable (t_columns t) (t_serial t + 1) (t_rows t ++ [r])).
Proof.
  intros Habove Hr z Hz. simpl in *. rewrite has_id_app in Hz.
  apply orb_true_iff in Hz as [Hz | Hz].
  - apply Habove in Hz. lia.
  - unfold has_id in Hz. simpl in Hz. rewrite orb_false_r in Hz.
    unfold id_is in Hz. rewrite Hr in Hz. apply Z.eqb_eq in Hz. lia.
Qed.

Lemma insert_loop_exact q d : forall rows c t,
  c_db c = Some t ->
  t_columns t = descriptors d ->
  serial_above t ->
  df_empty d = false ->
  nodup_str (pk_col :: columns d) = true ->
  (forall row, In row rows ->
     List.length row = List.length (df_columns d) /\
     forallb (fun cv => match coerce (pg_type_of_dtype (snd (fst cv))) (snd cv) with
                        | Some _ => true
                        | None => false
                        end) (combine (df_columns d) row) = true) ->
  exists c',
    insert_loop coerce q (columns d) rows (Ok c) = Ok c' /\
    c_db c' = Some (mkTable (descriptors d)
                      (t_serial t + Z.of_nat (List.length rows))
                      (t_rows t ++ stored_rows coerce d (t_serial t) rows)).
Proof.
  induction rows as [| row rows IH]; intros c t Hdb Hcols Habove Hne Hnd Hrows.
  - exists c. split; [reflexivity |]. rewrite Hdb. simpl.
    rewrite Z.add_0_r, app_nil_r, <- Hcols. now destruct t.
  - destruct (Hrows row (or_introl eq_refl)) as [Hlen Hacc].
    assert (Hndc : NoDup (columns d)).
    { apply nodup_str_NoDup. simpl in Hnd. now apply andb_true_iff in Hnd as [_ ?]. }
    pose proof (coerce_all_exact t d Hcols Hnd (df_columns d) row (incl_refl _) Hacc) as Hco.
    fold (columns d) in Hco.
    assert (Hlen' : List.length row = List.length (columns d)).
    { unfold columns. now rewrite length_map. }
    pose proof (store_insert_exact t (columns d) row _
                  (df_nonempty_columns d Hne) Hlen' Hnd Hco Habove) as Hins.
    rewrite (new_record_stored t d _ row Hcols Hndc Hlen) in Hins.
    unfold insert_loop. cbn [fold_left]. unfold cur_execute_insert at 2.
    cbn [bind]. rewrite Hdb, Hins. cbn [lift_store bind fst].
    match goal with
    | |- context [fold_left ?f rows (Ok ?c1)] =>
        destruct (IH c1 (mkTable (t_columns t) (t_serial t + 1)
                           (t_rows t ++ [stored_row coerce d (t_serial t) row])))
          as (c' & Hrun & Hres)
    end; auto.
    + apply serial_above_insert; [assumption | reflexivity].
    + intros r Hr. apply Hrows. now right.
    + exists c'. split; [exact Hrun |]. rewrite Hres. simpl.
      rewrite <- app_assoc. simpl. do 2 f_equal. lia.
Qed.

Lemma overwrite_run :
  forall schema_ table_ d c,
    df_empty d = false ->
    df_wf d = true ->
    NoDup (pk_col :: columns d) ->
    accepted coerce d = true ->
    exists c',
      __init__ coerce schema_ table_ false (Some d) c = (c', None) /\
      c_db c' = Some (mkTable (descriptors d)
                        (1 + Z.of_nat (List.length (df_rows d)))
                        (stored_rows coerce d 1 (df_rows d))).
Proof.
  intros schema_ table_ d c Hne Hwf Hnd Hacc. apply nodup_str_NoDup in Hnd.
  unfold __init__. rewrite Hne.
  set (self := mkIngestion schema_ table_ false (Some d)).
  assert (Hndc : nodup_str (columns d) = true).
  { simpl in Hnd. now apply andb_true_iff in Hnd as [_ ?]. }
  unfold _create_table_with_id, create_table_query. cbn [df self bind].
  rewrite Hne, (column_definitions_ok d Hndc). cbn [bind].
  unfold _drop_table_if_exists, logged, store_drop, store_create. cbn [c_db].
  assert (map fst (descriptors d) = columns d) as ->.
  { unfold descriptors, columns. now rewrite map_map. }
  rewrite Hnd. cbn [lift_store bind].
  unfold _insert_data. cbn [df self]. rewrite Hne.
  destruct (columns d) as [| col cols] eqn:Hcols.
  { now apply df_nonempty_columns in Hne. }
  rewrite <- Hcols in *.
  match goal with
  | |- context [insert_loop coerce ?q (columns d) ?rows (Ok ?c0)] =>
      destruct (insert_loop_exact q d rows c0 (mkTable (descriptors d) 1 []))
        as (c' & Hrun & Hres)
  end; auto.
  - intros z Hz. discriminate.
  - intros row Hin. unfold df_wf in Hwf. rewrite forallb_forall in Hwf.
    unfold accepted in Hacc. rewrite forallb_forall in Hacc.
    split; [apply Nat.eqb_eq; now apply Hwf | now apply Hacc].
  - rewrite Hrun. exists c'. split; [reflexivity | exact Hres].
Qed.


Lemma record_id_stored_row d id row : record_id (stored_row coerce d id row) = Some id.
Proof. reflexivity. Qed.

Lemma stored_rows_length d : forall rows s,
  List.length (stored_rows coerce d s rows) = List.length rows.
Proof.
  induction rows as [| row rows IH]; intros s; simpl; auto.
Qed.

Lemma stored_rows_ids d : forall rows s,
  List.length (ids_of (stored_rows coerce d s rows)) = List.length rows /\
  (forall z, In z (ids_of (stored_rows coerce d s rows)) ->
             (s <= z < s + Z.of_nat (List.length rows))%Z) /\
  NoDup (ids_of (stored_rows coerce d s rows)).
Proof.
  induction rows as [| row rows IH]; intros s.
  - simpl. split; [reflexivity | split; [intros z [] | constructor]].
  - destruct (IH (s + 1)%Z) as (Hl & Hr & Hn).
    change (ids_of (stored_rows coerce d s (row :: rows)))
      with (s :: ids_of (stored_rows coerce d (s + 1) rows)).
    split; [simpl; now rewrite Hl |]. split.
    + intros z [<- | Hz]; [simpl List.length; lia |].
      apply Hr in Hz. simpl List.length. lia.
    + constructor; [| assumption]. intros Hin. apply Hr in Hin. lia.
Qed.

Lemma has_id_ids_of rows z : has_id rows z = true <-> In z (ids_of rows).
Proof.
  now rewrite has_id_spec, In_ids_of.
Qed.

Lemma stored_rows_keys_ok d rows :
  keys_ok (mkTable (descriptors d) (1 + Z.of_nat (List.length rows))
             (stored_rows coerce d 1 rows)).
Proof.
  destruct (stored_rows_ids d rows 1) as (Hl & Hr & Hn).
  unfold keys_ok, serial_above. cbn [t_rows t_serial t_columns].
  split; [| split; [| split; [| split]]].
  - assumption.
  - now rewrite Hl, stored_rows_length.
  - intros z Hz. apply has_id_ids_of, Hr in Hz. lia.
  - lia.
  - intros z Hz. apply has_id_ids_of, Hr in Hz. lia.
Qed.


End IngestedRecords.



(** ** Bound parameters of the predicate compilers *)

Lemma to_uint_not_nil n : Nat.to_uint n <> Nil.
Proof.
  intros H. pose proof (DecimalNat.Unsigned.of_to n) as E. rewrite H in E.
  simpl in E. subst n. discriminate H.
Qed.

Lemma str_of_nat_inj n m : str_of_nat n = str_of_nat m -> n = m.
Proof.
  unfold str_of_nat. intros H.
  apply DecimalNat.Unsigned.to_uint_inj.
  pose proof (NilZero.usu _ (to_uint_not_nil n)) as En.
  pose proof (NilZero.usu _ (to_uint_not_nil m)) as Em.
  rewrite H in En. congruence.
Qed.

Lemma param_name_inj i j : param_name i = param_name j -> i = j.
Proof.
  unfold param_name. intros H. apply append_inj_l in H. now apply str_of_nat_inj.
Qed.

Lemma dict_set_fresh {V} (d : dict V) k v :
  ~ In k (keys d) -> dict_set d k v = d ++ [(k, v)].
Proof.
  induction d as [| [k0 v0] r IH]; simpl; intros Hn; [reflexivity |].
  destruct (String.eqb_spec k0 k) as [-> | _]; [exfalso; apply Hn; now left |].
  f_equal. apply IH. intros H. apply Hn. now right.
Qed.

Lemma fst_enumerate {A} (xs : list A) : forall start,
  map fst (enumerate start xs) = seq start (List.length xs).
Proof.
  induction xs as [| x r IH]; intros start; simpl; [reflexivity |].
  now rewrite IH.
Qed.

Lemma build_params_fold cs : forall ixs where_clauses params,
  NoDup (map fst ixs) ->
  (forall ix, In ix ixs -> ~ In (param_name (fst ix)) (keys params)) ->
  snd (fold_left
         (fun st (ix : nat * (string * value)) =>
            let '(where_clauses, params) := st in
            let '(idx, (col, v)) := ix in
            let param_name := "param_" ^^ str_of_nat idx in
            ((if is_str v && negb cs
              then where_clauses ++ [LowerEq col (Named param_name)]
              else where_clauses ++ [DirectEq col (Named param_name)]),
             dict_set params param_name v))
         ixs (where_clauses, params))
  = params ++ map (fun ix => (param_name (fst ix), snd (snd ix))) ixs.
Proof.
  induction ixs as [| [idx [col v]] r IH]; intros wc ps Hnd Hfresh.
  - simpl. now rewrite app_nil_r.
  - cbn [fold_left]. inversion Hnd as [| ? ? Hidx Hr]; subst.
    rewrite IH.
    + fold (param_name idx).
      rewrite dict_set_fresh by (apply (Hfresh (idx, (col, v))); now left).
      now rewrite <- app_assoc.
    + assumption.
    + intros ix Hix. fold (param_name idx).
      rewrite dict_set_fresh by (apply (Hfresh (idx, (col, v))); now left).
      unfold keys. rewrite map_app, in_app_iff. intros [H | [H | []]].
      * apply (Hfresh ix); [now right | assumption].
      * simpl in H. apply param_name_inj in H. subst idx.
        apply Hidx. now apply in_map.
Qed.

Lemma build_where_clauses_params conditions cs :
  snd (build_where_clauses conditions cs)
  = map (fun ix => (param_name (fst ix), snd (snd ix))) (enumerate 0 conditions).
Proof.
  unfold build_where_clauses. rewrite build_params_fold; [reflexivity | |].
  - rewrite fst_enumerate. apply seq_NoDup.
  - intros ix _ [].
Qed.

Lemma clauses_by_kind cs (name : nat -> placeholder) : forall c1 c2 start,
  keys c1 = keys c2 ->
  map (fun cv => is_str (snd cv)) c1 = map (fun cv => is_str (snd cv)) c2 ->
  map (fun ix => clause_for cs (name (fst ix)) (fst (snd ix)) (snd (snd ix)))
      (enumerate start c1)
  = map (fun ix => clause_for cs (name (fst ix)) (fst (snd ix)) (snd (snd ix)))
        (enumerate start c2).
Proof.
  induction c1 as [| [k1 v1] r1 IH]; intros [| [k2 v2] r2] start Hk Hs;
    simpl in *; try reflexivity; try discriminate.
  inversion Hk; inversion Hs; subst. f_equal; [| now apply IH].
  unfold clause_for. now rewrite H2.
Qed.

Lemma snd_enumerate {A} (xs : list A) : forall start,
  map snd (enumerate start xs) = xs.
Proof.
  induction xs as [| x r IH]; intros start; simpl; [reflexivity |].
  now rewrite IH.
Qed.

Lemma params_as_combine (c : dict value) : forall start,
  map (fun ix => (param_name (fst ix), snd (snd ix))) (enumerate start c)
  = combine (map param_name (seq start (List.length c))) (map snd c).
Proof.
  induction c as [| [k v] r IH]; intros start; simpl; [reflexivity |].
  now rewrite IH.
Qed.

(** The WHERE fragment of either compiler is decided by the column
    names, by which values are strings and by the flags: two mappings
    that agree on those give the same text whatever the values are.  The
    values travel beside the text, one per comparison in the order of
    the mapping, under the names [param_0], [param_1], ... in
    [build_where_clause] and as the positional list in [search_data]. *)
Theorem predicate_values_are_bound :
  forall c1 c2 operator case_sensitive,
    keys c1 = keys c2 ->
    map (fun cv => is_str (snd cv)) c1 = map (fun cv => is_str (snd cv)) c2 ->
    fst (build_where_clause c1 operator case_sensitive)
    = fst (build_where_clause c2 operator case_sensitive) /\
    where_statement operator (fst (search_clauses c1 case_sensitive))
    = where_statement operator (fst (search_clauses c2 case_sensitive)) /\
    snd (build_where_clause c1 operator case_sensitive)
    = combine (map param_name (seq 0 (List.length c1))) (map snd c1) /\
    snd (search_clauses c1 case_sensitive) = map snd c1.
Proof.
  intros c1 c2 operator cs Hk Hs. split; [| split; [| split]].
  - rewrite !build_where_clause_text, !build_where_clauses_spec.
    f_equal. now apply (clauses_by_kind cs (fun i => Named ("param_" ^^ str_of_nat i))).
  - rewrite !search_clauses_spec. simpl. f_equal.
    pose proof (clauses_by_kind cs (fun _ => Positional) c1 c2 0 Hk Hs) as H.
    rewrite <- (snd_enumerate c1 0), <- (snd_enumerate c2 0), !map_map.
    exact H.
  - unfold build_where_clause.
    pose proof (build_where_clauses_params c1 cs) as H.
    destruct (build_where_clauses c1 cs) as [wc ps]. simpl in *. subst ps.
    apply params_as_combine.
  - now rewrite search_clauses_spec.
Qed.

(** ** Searches compared *)

Section Searches.

Variable coerce : pg_type -> value -> option value.

Lemma bind_positional cs named : forall conditions,
  bind_params (map (fun cv => clause_for cs Positional (fst cv) (snd cv)) conditions)
              (map snd conditions) named
  = Ok (map (fun cv => (clause_for cs Positional (fst cv) (snd cv), snd cv)) conditions).
Proof.
  induction conditions as [| [col v] r IH]; simpl; [reflexivity |].
  assert (clause_placeholder (clause_for cs Positional col v) = Positional) as ->.
  { unfold clause_for. now destruct (is_str v && negb cs). }
  now rewrite IH.
Qed.

Lemma bind_named cs named : forall (ixs : list (nat * (string * value))),
  (forall ix, In ix ixs -> dict_get named (param_name (fst ix)) = Some (snd (snd ix))) ->
  bind_params
    (map (fun ix => clause_for cs (Named (param_name (fst ix))) (fst (snd ix)) (snd (snd ix)))
         ixs) [] named
  = Ok (map (fun ix => (clause_for cs (Named (param_name (fst ix)))
                                   (fst (snd ix)) (snd (snd ix)),
                        snd (snd ix))) ixs).
Proof.
  induction ixs as [| [idx [col v]] r IH]; intros H; cbn [map fst snd bind_params];
    [reflexivity |].
  assert (clause_placeholder (clause_for cs (Named (param_name idx)) col v)
          = Named (param_name idx)) as ->.
  { unfold clause_for. now destruct (is_str v && negb cs). }
  pose proof (H (idx, (col, v)) (or_introl eq_refl)) as Hd. cbn [fst snd] in Hd.
  rewrite Hd. cbn [bind].
  rewrite IH; [reflexivity |]. intros ix Hix. apply H. now right.
Qed.

Lemma prepare_any_placeholder t cs p1 p2 col v :
  prepare coerce t (clause_for cs p1 col v, v) = prepare coerce t (clause_for cs p2 col v, v).
Proof.
  unfold clause_for. now destruct (is_str v && negb cs).
Qed.

Lemma prepare_all_any_placeholder t cs : forall conditions start,
  prepare_all coerce t
    (map (fun cv => (clause_for cs Positional (fst cv) (snd cv), snd cv)) conditions)
  = prepare_all coerce t
      (map (fun ix => (clause_for cs (Named (param_name (fst ix)))
                                  (fst (snd ix)) (snd (snd ix)),
                       snd (snd ix))) (enumerate start conditions)).
Proof.
  induction conditions as [| [col v] r IH]; intros start; simpl; [reflexivity |].
  rewrite (IH (S start)).
  now rewrite (prepare_any_placeholder t cs Positional (Named (param_name start)) col v).
Qed.

Lemma NoDup_map_injective {A B} (f : A -> B) (l : list A) :
  (forall x y, f x = f y -> x = y) -> NoDup l -> NoDup (map f l).
Proof.
  intros Hinj H. induction H as [| x r Hn Hd IH]; simpl; constructor; auto.
  intros Hin. apply in_map_iff in Hin as (y & Hy & Hin).
  apply Hinj in Hy. now subst.
Qed.

Lemma named_params_lookup (conditions : dict value) limit :
  forall ix : nat * (string * value),
  In ix (enumerate 0 conditions) ->
  dict_get (dict_set (map (fun ix : nat * (string * value) =>
                             (param_name (fst ix), snd (snd ix)))
                          (enumerate 0 conditions)) "limit" (VInt limit))
           (param_name (fst ix))
  = Some (snd (snd ix)).
Proof.
  intros ix Hix. rewrite dict_get_set.
  assert (String.eqb "limit" (param_name (fst ix)) = false) as -> by reflexivity.
  apply dict_get_nodup.
  - apply nodup_str_NoDup. unfold keys. rewrite map_map. simpl.
    rewrite <- (map_map fst param_name), fst_enumerate.
    apply NoDup_map_injective; [| apply seq_NoDup].
    intros i j. apply param_name_inj.
  - apply in_map_iff. exists ix. split; [reflexivity | assumption].
Qed.

Lemma stage_by_length operator (l1 l2 : list clause) :
  List.length l1 = List.length l2 ->
  match l1 with
  | [] => Err SyntaxError
  | [_] => Ok true
  | _ :: _ :: _ =>
      match combinator operator with
      | Some b => Ok b
      | None => Err SyntaxError
      end
  end
  = match l2 return result store_error bool with
    | [] => Err SyntaxError
    | [_] => Ok true
    | _ :: _ :: _ =>
        match combinator operator with
        | Some b => Ok b
        | None => Err SyntaxError
        end
    end.
Proof.
  destruct l1 as [| a [| b r]], l2 as [| a' [| b' r']]; simpl; intros H;
    try discriminate; reflexivity.
Qed.


End Searches.

Section SearchResults.

Variable coerce : pg_type -> value -> option value.

Lemma parsed_combinator_clauses operator (cls : list clause) :
  match cls with
  | [] => Err SyntaxError
  | [_] => Ok true
  | _ :: _ :: _ =>
      match combinator operator with
      | Some b => Ok b
      | None => Err SyntaxError
      end
  end = parsed_combinator (List.length cls) operator.
Proof.
  now destruct cls as [| a [| b r]].
Qed.

(** [search_data] in one piece. *)
Lemma search_data_unfold self d conditions operator cs :
  no_table self = false ->
  conditions <> [] ->
  search_data coerce self d conditions operator cs
  = lift_store
      (conj <- parsed_combinator (List.length conditions) operator ;;
       t <- get_table d ;;
       tests <- prepare_all coerce t
                  (map (fun cv => (clause_for cs Positional (fst cv) (snd cv), snd cv))
                       conditions) ;;
       Ok (filter (matches conj tests) (t_rows t))).
Proof.
  intros Ht Hne. unfold search_data, search_query. rewrite Ht.
  assert (is_nil conditions = false) as ->
      by (destruct conditions; [contradiction | reflexivity]).
  rewrite search_clauses_spec. cbn [bind]. unfold store_select.
  rewrite parsed_combinator_clauses, length_map.
  destruct (parsed_combinator (List.length conditions) operator); [| reflexivity].
  cbn [bind]. destruct d as [t |]; [| reflexivity]. cbn [get_table bind].
  now rewrite bind_positional.
Qed.

Lemma prepare_all_length t : forall cvs tests,
  prepare_all coerce t cvs = Ok tests -> List.length tests = List.length cvs.
Proof.
  induction cvs as [| cv r IH]; intros tests H; simpl in H.
  - now inv H.
  - destruct (prepare coerce t cv); simpl in H; [| discriminate].
    destruct (prepare_all coerce t r) eqn:E; simpl in H; [| discriminate].
    inv H. simpl. f_equal. now apply IH.
Qed.

Lemma filter_incl_weaker {A} (f g : A -> bool) (l : list A) :
  (forall x, f x = true -> g x = true) -> incl (filter f l) (filter g l).
Proof.
  intros H x Hx. apply filter_In in Hx as [Hin Hf]. apply filter_In. auto.
Qed.


End SearchResults.

Section CaseFolding.

Variable coerce : pg_type -> value -> option value.

(** The store reads a text for a text column as that text. *)
Hypothesis coerce_text : forall b, coerce TEXT (VStr b) = Some (VStr b).

Lemma prepare_weaker t col v f1 f2 :
  prepare coerce t (clause_for true Positional col v, v) = Ok f1 ->
  prepare coerce t (clause_for false Positional col v, v) = Ok f2 ->
  forall r, f1 r = true -> f2 r = true.
Proof.
  unfold clause_for. rewrite andb_false_r, andb_true_r.
  destruct (is_str v) eqn:Hs.
  - destruct v; try discriminate. unfold prepare. simpl.
    destruct (column_type t col) as [ty |]; [| discriminate].
    destruct ty; try discriminate. rewrite coerce_text.
    intros H1 H2. inv H1. inv H2. intros r.
    destruct (dict_get r col) as [[| | | | a] |]; simpl; try discriminate.
    intros H. apply String.eqb_eq in H. subst. apply String.eqb_refl.
  - intros H1 H2. rewrite H1 in H2. now inv H2.
Qed.

Lemma tests_weaker t : forall conditions tests1 tests2,
  prepare_all coerce t
    (map (fun cv => (clause_for true Positional (fst cv) (snd cv), snd cv)) conditions)
  = Ok tests1 ->
  prepare_all coerce t
    (map (fun cv => (clause_for false Positional (fst cv) (snd cv), snd cv)) conditions)
  = Ok tests2 ->
  Forall2 (fun f1 f2 : record -> bool => forall r, f1 r = true -> f2 r = true)
          tests1 tests2.
Proof.
  induction conditions as [| [col v] rest IH]; intros tests1 tests2 H1 H2;
    simpl in H1, H2.
  - inv H1. inv H2. constructor.
  - destruct (prepare coerce t (clause_for true Positional col v, v)) as [f1 |] eqn:E1;
      simpl in H1; [| discriminate].
    destruct (prepare coerce t (clause_for false Positional col v, v)) as [f2 |] eqn:E2;
      simpl in H2; [| discriminate].
    destruct (prepare_all coerce t (map _ rest)) as [fs1 |] eqn:R1 in H1;
      simpl in H1; [| discriminate].
    destruct (prepare_all coerce t (map _ rest)) as [fs2 |] eqn:R2 in H2;
      simpl in H2; [| discriminate].
    inv H1. inv H2. constructor.
    + eapply prepare_weaker; eauto.
    + now apply IH.
Qed.

Lemma matches_weaker conj tests1 tests2 r :
  Forall2 (fun f1 f2 : record -> bool => forall r, f1 r = true -> f2 r = true)
          tests1 tests2 ->
  matches conj tests1 r = true -> matches conj tests2 r = true.
Proof.
  intros H. unfold matches. destruct conj.
  - induction H as [| f1 f2 l1 l2 Hf _ IH]; simpl; [reflexivity |].
    intros Hm. apply andb_true_iff in Hm as [H1 H2].
    rewrite (Hf r H1). now apply IH.
  - induction H as [| f1 f2 l1 l2 Hf _ IH]; simpl; [discriminate |].
    intros Hm. apply orb_true_iff in Hm as [H1 | H2].
    + now rewrite (Hf r H1).
    + rewrite (IH H2). apply orb_true_r.
Qed.

(** When the store reads text for a text column as it is, and both the
    case-sensitive and the case-insensitive search for the same
    conditions return records, every record of the case-sensitive search
    is among those of the case-insensitive one. *)
Theorem case_sensitive_within_insensitive :
  forall self d conditions operator rows_cs rows_ci,
    no_table self = false ->
    search_data coerce self d conditions operator true = Ok rows_cs ->
    search_data coerce self d conditions operator false = Ok rows_ci ->
    incl rows_cs rows_ci.
Proof.
  intros self d conditions operator rows_cs rows_ci Ht Hcs Hci.
  destruct conditions as [| cv rest].
  { unfold search_data, search_query in Hcs. rewrite Ht in Hcs. discriminate. }
  rewrite search_data_unfold in Hcs, Hci by (assumption || discriminate).
  destruct (parsed_combinator (List.length (cv :: rest)) operator) as [conj |];
    [| discriminate].
  cbn [bind] in Hcs, Hci. destruct d as [t |]; [| discriminate].
  cbn [get_table bind] in Hcs, Hci.
  destruct (prepare_all coerce t _) as [tests1 |] eqn:E1 in Hcs; [| discriminate].
  destruct (prepare_all coerce t _) as [tests2 |] eqn:E2 in Hci; [| discriminate].
  cbn [bind lift_store] in Hcs, Hci. inv Hcs. inv Hci.
  apply filter_incl_weaker. intros r.
  apply matches_weaker. eapply tests_weaker; eauto.
Qed.

End CaseFolding.

Lemma predicate_values_are_bound_witness :
  fst (build_where_clause by_name_and_age "AND" false)
  = fst (build_where_clause by_name_and_age' "AND" false) /\
  snd (build_where_clause by_name_and_age "AND" false)
  = [("param_0", VStr "john"); ("param_1", VInt 30)].
Proof.
  destruct (predicate_values_are_bound by_name_and_age by_name_and_age' "AND" false
              eq_refl eq_refl) as (H1 & _ & H3 & _).
  split; [exact H1 | exact H3].
Defined.



Lemma pg_coerce_text b : pg_coerce TEXT (VStr b) = Some (VStr b).
Proof. reflexivity. Qed.

Lemma case_sensitive_within_insensitive_witness :
  search_data pg_coerce people_table people_db [("name", VStr "John")] "AND" true
  = Ok [john] /\
  search_data pg_coerce people_table people_db [("name", VStr "John")] "AND" false
  = Ok [john] /\
  incl [john] [john].
Proof.
  split; [reflexivity |]. split; [reflexivity |].
  exact (case_sensitive_within_insensitive pg_coerce pg_coerce_text people_table people_db
           [("name", VStr "John")] "AND" [john] [john] eq_refl eq_refl eq_refl).
Defined.

(** ** Create and read *)

Lemma combine_keys_values {V} (d : dict V) : combine (keys d) (map snd d) = d.
Proof.
  induction d as [| [k v] r IH]; simpl; [reflexivity |]. now rewrite IH.
Qed.

Lemma ids_of_app rows1 rows2 : ids_of (rows1 ++ rows2) = ids_of rows1 ++ ids_of rows2.
Proof.
  unfold ids_of. apply flat_map_app.
Qed.

Lemma dict_get_tabulated (F : string -> value) (l : list (string * pg_type)) c :
  dict_get (map (fun cd => (fst cd, F (fst cd))) l) c
  = if mem c (map fst l) then Some (F c) else None.
Proof.
  induction l as [| [k ty] r IH]; simpl; [reflexivity |].
  rewrite IH. rewrite (String.eqb_sym c k).
  destruct (String.eqb_spec k c) as [-> | _]; reflexivity.
Qed.

Lemma dict_get_Some_In {V} (d : dict V) k v : dict_get d k = Some v -> In k (keys d).
Proof.
  induction d as [| [k0 v0] r IH]; simpl; [discriminate |].
  destruct (String.eqb_spec k0 k) as [-> | _]; [now left | right; auto].
Qed.

Section CreateAndRead.

Variable coerce : pg_type -> value -> option value.

Lemma coerce_all_known t : forall given given' c,
  coerce_all coerce t given = Ok given' ->
  In c (keys given) -> c = pk_col \/ In c (map fst (t_columns t)).
Proof.
  induction given as [| [k v] r IH]; intros given' c H Hin; simpl in *; [contradiction |].
  destruct (coerce_cell coerce t k v) eqn:Ec; simpl in H; [| discriminate].
  destruct (coerce_all coerce t r) eqn:Er; simpl in H; [| discriminate].
  destruct Hin as [<- | Hin]; [| eauto].
  unfold coerce_cell, column_type in Ec.
  destruct (String.eqb_spec k pk_col) as [-> | _]; [now left |].
  destruct (dict_get (t_columns t) k) eqn:Ek; [| discriminate].
  right. eapply dict_get_Some_In; eauto.
Qed.

Lemma coerce_all_unknown t : forall given c,
  In c (keys given) -> column_type t c = None ->
  exists e, coerce_all coerce t given = Err e.
Proof.
  induction given as [| [k v] r IH]; intros c Hin Hty; simpl in *; [contradiction |].
  destruct Hin as [-> | Hin].
  - unfold coerce_cell. rewrite Hty. simpl. eauto.
  - destruct (coerce_cell coerce t k v); simpl; [| eauto].
    destruct (IH c Hin Hty) as [e ->]. simpl. eauto.
Qed.

Lemma store_insert_named_own t data :
  NoDup (keys data) ->
  (forall k, In k (keys data) -> bindable k = true) ->
  store_insert_named coerce (Some t) (keys data) data
  = store_insert coerce (Some t) (keys data) (map snd data).
Proof.
  intros Hnd Hb. unfold store_insert_named.
  assert (forallb bindable (keys data) = true) as ->
      by (apply forallb_forall; exact Hb).
  cbn [negb]. rewrite bind_sets_own; [reflexivity |].
  intros k v Hin. apply dict_get_nodup; [now apply nodup_str_NoDup | assumption].
Qed.

Lemma NoDup_snoc {A} (l : list A) x : NoDup l -> ~ In x l -> NoDup (l ++ [x]).
Proof.
  induction l as [| y l IH]; simpl; intros Hnd Hx.
  - constructor; [intros [] | constructor].
  - inversion Hnd as [| ? ? Hy Hl]; subst. constructor.
    + rewrite in_app_iff. intros [H | [H | []]]; [contradiction |].
      apply Hx. now left.
    + apply IH; [assumption |]. intros H. apply Hx. now right.
Qed.

(** Create, then read.  For a body that is not empty, with columns named
    by letters, digits and underscores other than the key's, and values
    the store takes, on a table whose keys are in order: the answer is
    the new record, whose key is the next of the sequence, whose listed
    columns hold the values as the store reads them and whose other
    columns are null; it is added after the records of the table, which
    stay as they are; the keys are still in order; and reading that key
    gives the answered record. *)
Theorem create_then_read :
  forall t data given,
    keys_ok t ->
    data <> [] ->
    NoDup (keys data) ->
    (forall k, In k (keys data) -> bindable k = true /\ k <> pk_col) ->
    coerce_all coerce t data = Ok given ->
    exists r t',
      create_item coerce (Some t) data = (Some t', Ok r) /\
      t' = mkTable (t_columns t) (t_serial t + 1) (t_rows t ++ [r]) /\
      record_id r = Some (t_serial t) /\
      (forall c v, In (c, v) given -> dict_get r c = Some v) /\
      (forall c, In c (map fst (t_columns t)) -> c <> pk_col -> ~ In c (keys data) ->
                 dict_get r c = Some VNull) /\
      keys_ok t' /\
      get_item (Some t') (t_serial t) = Ok r.
Proof.
  intros t data given (Hnodup & Hlen & Habove & Hser & Hpos) Hne Hnd Hkeys Hco.
  assert (Hgk : keys given = keys data) by (eapply coerce_all_keys; eauto).
  assert (Hpk : ~ In pk_col (keys data)).
  { intros H. now apply (Hkeys _ H). }
  assert (Hndg : nodup_str (keys given) = true).
  { apply nodup_str_NoDup. now rewrite Hgk. }
  assert (Hins : store_insert coerce (Some t) (keys data) (map snd data)
                 = Ok (Some (mkTable (t_columns t) (t_serial t + 1)
                               (t_rows t ++ [new_record t given (t_serial t)])),
                       new_record t given (t_serial t))).
  { apply store_insert_exact.
    - destruct data; [contradiction | discriminate].
    - unfold keys. now rewrite !length_map.
    - simpl. apply andb_true_iff. split.
      + apply negb_true_iff, mem_false. exact Hpk.
      + now apply nodup_str_NoDup.
    - now rewrite combine_keys_values.
    - exact Habove. }
  set (r := new_record t given (t_serial t)) in *.
  assert (Hrid : record_id r = Some (t_serial t)) by reflexivity.
  assert (Hfresh : has_id (t_rows t) (t_serial t) = false).
  { destruct (has_id (t_rows t) (t_serial t)) eqn:E; [| reflexivity].
    apply Habove in E. lia. }
  exists r. eexists. split; [| split; [reflexivity |]].
  - unfold create_item. rewrite store_insert_named_own, Hins; [reflexivity | assumption |].
    intros k Hk. now apply Hkeys.
  - split; [exact Hrid |]. split; [| split; [| split]].
    + intros c v Hcv.
      assert (Hc : In c (keys data)).
      { rewrite <- Hgk. change c with (fst (c, v)). now apply in_map. }
      assert (Hcpk : c <> pk_col) by (now apply Hkeys).
      unfold r, new_record. cbn [dict_get].
      destruct (String.eqb_spec pk_col c) as [E | _]; [congruence |].
      rewrite (dict_get_tabulated
                 (fun k => match dict_get given k with Some v => v | None => VNull end)).
      destruct (coerce_all_known t data given c Hco Hc) as [E | Hin]; [contradiction |].
      rewrite (proj2 (mem_In c _) Hin).
      now rewrite (dict_get_nodup given Hndg c v Hcv).
    + intros c Hin Hcpk Hout. unfold r, new_record. cbn [dict_get].
      destruct (String.eqb_spec pk_col c) as [E | _]; [congruence |].
      rewrite (dict_get_tabulated
                 (fun k => match dict_get given k with Some v => v | None => VNull end)).
      rewrite (proj2 (mem_In c _) Hin).
      rewrite dict_get_None; [reflexivity | now rewrite Hgk].
    + unfold keys_ok. cbn [t_rows t_serial]. rewrite ids_of_app.
      assert (Hone : ids_of [r] = [t_serial t]).
      { reflexivity. }
      rewrite Hone. split; [| split; [| split; [| split]]].
      * apply NoDup_snoc; [assumption |]. intros Hin.
        apply has_id_ids_of in Hin. congruence.
      * rewrite !length_app, Hlen. reflexivity.
      * now apply serial_above_insert.
      * lia.
      * intros z Hz. rewrite has_id_app in Hz. apply orb_true_iff in Hz as [Hz | Hz].
        -- now apply Hpos.
        -- unfold has_id in Hz. simpl in Hz. rewrite orb_false_r in Hz.
           unfold id_is in Hz. rewrite Hrid in Hz. apply Z.eqb_eq in Hz. lia.
    + unfold get_item.
      assert ((t_serial t <? 1)%Z = false) as -> by (apply Z.ltb_ge; lia).
      unfold store_get. cbn [get_table bind t_rows or_400].
      rewrite filter_app. unfold has_id in Hfresh.
      rewrite (filter_existsb_false _ _ Hfresh). simpl.
      unfold id_is at 1. rewrite Hrid, Z.eqb_refl. reflexivity.
Qed.


End CreateAndRead.

Lemma people_rows_keys_ok : keys_ok people_rows.
Proof.
  exact (stored_rows_keys_ok pg_coerce people (df_rows people)).
Qed.

Lemma create_then_read_witness :
  exists r t',
    create_item pg_coerce (Some people_rows) [("name", VStr "Bob"); ("age", VInt 35)]
    = (Some t', Ok r) /\
    record_id r = Some 3%Z /\
    dict_get r "city" = Some VNull /\
    get_item (Some t') 3 = Ok r.
Proof.
  assert (Hkeys : forall k, In k (keys [("name", VStr "Bob"); ("age", VInt 35)]) ->
                            bindable k = true /\ k <> pk_col).
  { intros k [<- | [<- | []]]; split; (reflexivity || discriminate). }
  destruct (create_then_read pg_coerce people_rows
              [("name", VStr "Bob"); ("age", VInt 35)]
              [("name", VStr "Bob"); ("age", VInt 35)]
              people_rows_keys_ok ltac:(discriminate)
              (proj1 (nodup_str_NoDup (keys [("name", VStr "Bob"); ("age", VInt 35)]))
                     eq_refl)
              Hkeys eq_refl) as (r & t' & Hc & _ & Hid & _ & Hn & _ & Hg).
  exists r, t'. split; [exact Hc |]. split; [exact Hid |]. split; [| exact Hg].
  apply Hn.
  - simpl. auto.
  - discriminate.
  - simpl. intros [H | [H | []]]; discriminate.
Defined.


(** ** Read by key, delete, update *)

Lemma unique_by_id rows : NoDup (ids_of rows) ->
  forall r r' z, In r rows -> In r' rows ->
                 record_id r = Some z -> record_id r' = Some z -> r = r'.
Proof.
  induction rows as [| x l IH]; intros Hnd r r' z Hr Hr' Hz Hz'; [contradiction |].
  change (ids_of (x :: l))
    with ((match record_id x with Some y => [y] | None => [] end) ++ ids_of l) in Hnd.
  assert (Hl : NoDup (ids_of l)).
  { destruct (record_id x); [now inversion Hnd | exact Hnd]. }
  assert (Hx : forall y, record_id x = Some y -> ~ In y (ids_of l)).
  { intros y Hy. rewrite Hy in Hnd. now inversion Hnd. }
  destruct Hr as [<- | Hr], Hr' as [<- | Hr'].
  - reflexivity.
  - exfalso. apply (Hx z Hz). apply In_ids_of. eauto.
  - exfalso. apply (Hx z Hz'). apply In_ids_of. eauto.
  - eapply IH; eauto.
Qed.

(** Reading by key: a key below 1 is refused (422); a key no record has
    gives 404; otherwise the answer is a record of the table with that
    key, the only one when the keys of the table are in order. *)
Theorem get_item_by_key :
  forall t item_id,
    ((item_id < 1)%Z ->
     get_item (Some t) item_id = Err (HTTPException 422 (Message "item_id"))) /\
    ((1 <= item_id)%Z -> has_id (t_rows t) item_id = false ->
     get_item (Some t) item_id = Err (HTTPException 404 (Message "Item not found"))) /\
    ((1 <= item_id)%Z -> has_id (t_rows t) item_id = true ->
     exists r,
       get_item (Some t) item_id = Ok r /\
       In r (t_rows t) /\
       record_id r = Some item_id /\
       (keys_ok t -> forall r', In r' (t_rows t) -> record_id r' = Some item_id -> r' = r)).
Proof.
  intros t item_id. unfold get_item, store_get. cbn [get_table bind or_400].
  split; [| split].
  - intros H. apply Z.ltb_lt in H. now rewrite H.
  - intros H Hno. assert ((item_id <? 1)%Z = false) as -> by (apply Z.ltb_ge; lia).
    unfold has_id in Hno. now rewrite (filter_existsb_false _ _ Hno).
  - intros H Hyes. assert ((item_id <? 1)%Z = false) as -> by (apply Z.ltb_ge; lia).
    unfold has_id in Hyes.
    destruct (filter_existsb_true _ _ Hyes) as (r & rest & Hf & Hin & Hr).
    rewrite Hf. exists r. split; [reflexivity |]. split; [assumption |].
    assert (Hid : record_id r = Some item_id).
    { unfold id_is in Hr. destruct (record_id r); [| discriminate].
      apply Z.eqb_eq in Hr. now subst. }
    split; [assumption |].
    intros (Hnd & _) r' Hin' Hid'. eapply unique_by_id; eauto.
Qed.

Lemma get_item_by_key_witness :
  get_item (Some people_rows) 2 = Ok jane /\
  get_item (Some people_rows) 5 = Err (HTTPException 404 (Message "Item not found")) /\
  get_item (Some people_rows) 0 = Err (HTTPException 422 (Message "item_id")).
Proof.
  split; [| split].
  - destruct (proj2 (proj2 (get_item_by_key people_rows 2)) ltac:(lia) eq_refl)
      as (r & Hg & _ & _ & Hu).
    rewrite Hg. f_equal. symmetry. apply (Hu people_rows_keys_ok).
    + simpl. auto.
    + reflexivity.
  - exact (proj1 (proj2 (get_item_by_key people_rows 5)) ltac:(lia) eq_refl).
  - exact (proj1 (get_item_by_key people_rows 0) ltac:(lia)).
Defined.

Lemma ids_of_length_le rows : List.length (ids_of rows) <= List.length rows.
Proof.
  induction rows as [| x l IH]; simpl; [lia |].
  change (ids_of (x :: l))
    with ((match record_id x with Some y => [y] | None => [] end) ++ ids_of l).
  destruct (record_id x); simpl; lia.
Qed.

Lemma ids_of_length_all rows :
  List.length (ids_of rows) = List.length rows <->
  (forall r, In r rows -> record_id r <> None).
Proof.
  induction rows as [| x l IH].
  - split; [intros _ r [] | reflexivity].
  - change (ids_of (x :: l))
      with ((match record_id x with Some y => [y] | None => [] end) ++ ids_of l).
    pose proof (ids_of_length_le l) as Hle. split.
    + intros H r [<- | Hr].
      * destruct (record_id x); [discriminate | simpl in H; lia].
      * apply IH; [| assumption]. destruct (record_id x); simpl in H; lia.
    + intros H. destruct (record_id x) eqn:E.
      * simpl. f_equal. apply IH. intros r Hr. apply H. now right.
      * exfalso. apply (H x); [now left | assumption].
Qed.

Lemma ids_of_filter_In f rows z : In z (ids_of (filter f rows)) -> In z (ids_of rows).
Proof.
  rewrite !In_ids_of. intros (r & Hin & Hz). apply filter_In in Hin as [Hin _]. eauto.
Qed.

Lemma ids_of_filter_NoDup f rows : NoDup (ids_of rows) -> NoDup (ids_of (filter f rows)).
Proof.
  induction rows as [| x l IH]; intros Hnd; [constructor |].
  change (ids_of (x :: l))
    with ((match record_id x with Some y => [y] | None => [] end) ++ ids_of l) in Hnd.
  assert (Hl : NoDup (ids_of l)).
  { destruct (record_id x); [now inversion Hnd | exact Hnd]. }
  simpl. destruct (f x); [| auto].
  change (ids_of (x :: filter f l))
    with ((match record_id x with Some y => [y] | None => [] end) ++ ids_of (filter f l)).
  destruct (record_id x) as [y |]; simpl; [| auto].
  constructor; [| auto]. intros Hin. apply ids_of_filter_In in Hin.
  now inversion Hnd.
Qed.

Lemma filter_length_split {A} (f : A -> bool) (l : list A) :
  List.length (filter f l) + List.length (filter (fun x => negb (f x)) l) = List.length l.
Proof.
  induction l as [| x l IH]; simpl; [reflexivity |].
  destruct (f x); simpl; lia.
Qed.

Lemma filter_filter_implied {A} (f g : A -> bool) (l : list A) :
  (forall x, f x = true -> g x = true) -> filter f (filter g l) = filter f l.
Proof.
  intros H. induction l as [| x l IH]; simpl; [reflexivity |].
  destruct (g x) eqn:Eg; simpl.
  - now rewrite IH.
  - destruct (f x) eqn:Ef; [| assumption]. apply H in Ef. congruence.
Qed.

Lemma keys_ok_filter t f :
  keys_ok t -> keys_ok (mkTable (t_columns t) (t_serial t) (filter f (t_rows t))).
Proof.
  intros (Hnd & Hlen & Habove & Hser & Hpos). unfold keys_ok. cbn [t_rows t_serial].
  assert (Hsub : forall z, has_id (filter f (t_rows t)) z = true ->
                           has_id (t_rows t) z = true).
  { intros z Hz. apply has_id_ids_of. apply has_id_ids_of in Hz.
    eapply ids_of_filter_In; eauto. }
  split; [| split; [| split; [| split]]].
  - now apply ids_of_filter_NoDup.
  - apply ids_of_length_all. intros r Hr. apply filter_In in Hr as [Hr _].
    now apply (proj1 (ids_of_length_all (t_rows t)) Hlen).
  - intros z Hz. apply Habove. auto.
  - assumption.
  - intros z Hz. apply Hpos. auto.
Qed.

(** Delete, then read.  After a delete of a list of keys that is not
    empty, reading any of the requested keys gives 404 and reading any
    other key gives what it gave before; when the keys of the table are
    in order they still are, and the table has lost exactly as many
    records as keys are answered. *)
Theorem delete_then_read :
  forall t ids,
    ids <> [] ->
    exists t' deleted_ids,
      delete_items (Some t) ids = (Some t', Ok deleted_ids) /\
      (forall id, In id ids -> (1 <= id)%Z ->
                  get_item (Some t') id
                  = Err (HTTPException 404 (Message "Item not found"))) /\
      (forall id, ~ In id ids -> get_item (Some t') id = get_item (Some t) id) /\
      (keys_ok t ->
       keys_ok t' /\
       List.length (t_rows t') + List.length deleted_ids = List.length (t_rows t)).
Proof.
  intros t ids Hne. destruct ids as [| i0 ids0] eqn:Hids; [contradiction |].
  rewrite <- Hids in *. clear Hne.
  exists (mkTable (t_columns t) (t_serial t)
            (filter (fun r => negb (id_in ids r)) (t_rows t))).
  exists (ids_of (filter (id_in ids) (t_rows t))).
  split; [now rewrite Hids |]. split; [| split].
  - intros id Hin Hpos. unfold get_item, store_get.
    assert ((id <? 1)%Z = false) as -> by (apply Z.ltb_ge; lia).
    cbn [get_table bind or_400 t_rows].
    assert (filter (id_is id) (filter (fun r => negb (id_in ids r)) (t_rows t)) = []) as ->;
      [| reflexivity].
    destruct (filter _ (filter _ _)) as [| x l] eqn:E; [reflexivity |].
    assert (Hx : In x (x :: l)) by now left. rewrite <- E in Hx.
    apply filter_In in Hx as [Hx Hid]. apply filter_In in Hx as [_ Hno].
    apply negb_true_iff in Hno.
    assert (id_in ids x = true); [| congruence].
    unfold id_in. apply existsb_exists. eauto.
  - intros id Hout. unfold get_item, store_get. cbn [get_table bind or_400 t_rows].
    rewrite filter_filter_implied; [reflexivity |].
    intros x Hx. apply negb_true_iff.
    destruct (id_in ids x) eqn:E; [| reflexivity].
    apply id_in_spec in E as (z & Hz & Hr). unfold id_is in Hx. rewrite Hr in Hx.
    apply Z.eqb_eq in Hx. subst. contradiction.
  - intros Hok. split; [now apply keys_ok_filter |]. cbn [t_rows].
    destruct Hok as (_ & Hlen & _).
    assert (List.length (ids_of (filter (id_in ids) (t_rows t)))
            = List.length (filter (id_in ids) (t_rows t))) as ->.
    { apply ids_of_length_all. intros r Hr. apply filter_In in Hr as [Hr _].
      now apply (proj1 (ids_of_length_all (t_rows t)) Hlen). }
    rewrite Nat.add_comm. apply filter_length_split.
Qed.

Lemma delete_then_read_witness :
  exists t' deleted_ids,
    delete_items (Some people_rows) [1; 7]%Z = (Some t', Ok deleted_ids) /\
    get_item (Some t') 1 = Err (HTTPException 404 (Message "Item not found")) /\
    get_item (Some t') 2 = Ok jane /\
    List.length (t_rows t') + List.length deleted_ids = 2.
Proof.
  destruct (delete_then_read people_rows [1; 7]%Z ltac:(discriminate))
    as (t' & deleted & Hd & Hgone & Hkept & Hok).
  exists t', deleted. split; [exact Hd |]. split; [| split].
  - apply Hgone; [now left | lia].
  - rewrite Hkept; [reflexivity |]. intros [H | [H | []]]; discriminate.
  - exact (proj2 (Hok people_rows_keys_ok)).
Defined.

Lemma delete_items_existing_subset_witness :
  exists t' deleted_ids,
    delete_items (Some people_rows) [2; 9]%Z = (Some t', Ok deleted_ids) /\
    (forall z, In z deleted_ids <-> In z [2; 9]%Z /\ has_id (t_rows people_rows) z = true) /\
    delete_items (Some t') [2; 9]%Z = (Some t', Ok []).
Proof.
  destruct (delete_items_existing_subset people_rows [2; 9]%Z ltac:(discriminate))
    as (t' & deleted & Hd & Hsub & _ & Hagain).
  exists t', deleted. auto.
Defined.

Lemma dict_set_same {V} (d : dict V) k v : dict_get d k = Some v -> dict_set d k v = d.
Proof.
  induction d as [| [k0 v0] r IH]; simpl; [discriminate |].
  destruct (String.eqb_spec k0 k) as [-> | _].
  - intros H. now inv H.
  - intros H. now rewrite IH.
Qed.

Lemma apply_sets_fixed (given : dict value) : forall r,
  (forall k v, In (k, v) given -> dict_get r k = Some v) -> apply_sets r given = r.
Proof.
  unfold apply_sets. induction given as [| [k v] g IH]; intros r H; simpl; [reflexivity |].
  rewrite dict_set_same by (apply H; now left).
  apply IH. intros k' v' Hin. apply H. now right.
Qed.

Lemma apply_sets_idem given r :
  NoDup (keys given) -> apply_sets (apply_sets r given) given = apply_sets r given.
Proof.
  intros Hnd. apply apply_sets_fixed. intros k v Hin. now apply apply_sets_listed.
Qed.

Lemma ids_of_map_preserved (g : record -> record) rows :
  (forall r, record_id (g r) = record_id r) -> ids_of (map g rows) = ids_of rows.
Proof.
  intros H. unfold ids_of. induction rows as [| x l IH]; simpl; [reflexivity |].
  now rewrite H, IH.
Qed.

Section UpdateAgain.

Variable coerce : pg_type -> value -> option value.


End UpdateAgain.


(** ** What a read by predicate returns *)

Lemma column_type_known t c : column_type t c <> None -> In c (all_columns t).
Proof.
  unfold column_type, all_columns.
  destruct (String.eqb_spec c pk_col) as [-> | _]; [now left |].
  intros H. right. destruct (dict_get (t_columns t) c) eqn:E; [| contradiction].
  eapply dict_get_Some_In; eauto.
Qed.

Lemma In_firstn {A} (l : list A) : forall n x, In x (firstn n l) -> In x l.
Proof.
  induction l as [| y l IH]; intros [| n] x H; simpl in *; try contradiction.
  destruct H as [-> | H]; [now left | right; eauto].
Qed.

Section ReadResults.

Variable coerce : pg_type -> value -> option value.

Lemma prepare_all_columns t : forall cvs tests cv,
  prepare_all coerce t cvs = Ok tests -> In cv cvs ->
  In (clause_col (fst cv)) (all_columns t).
Proof.
  intros cvs tests cv H Hin. apply column_type_known. intros Hty.
  destruct (prepare_all_unknown coerce t cvs cv Hin Hty) as [e He]. congruence.
Qed.


End ReadResults.


(** ** Patterns *)

Lemma append_empty_r (s : string) : s ^^ EmptyString = s.
Proof.
  induction s as [| c s IH]; simpl; [reflexivity | now rewrite IH].
Qed.

Lemma append_assoc3 (a b c : string) : (a ^^ b) ^^ c = a ^^ b ^^ c.
Proof.
  induction a as [| x a IH]; simpl; [reflexivity | now rewrite IH].
Qed.

Lemma like_percent_unfold p s :
  like (String percent p) s
  = like p s || match s with
                | EmptyString => false
                | String _ s' => like (String percent p) s'
                end.
Proof.
  destruct s; reflexivity.
Qed.

Lemma like_underscore p s :
  like (String underscore p) s
  = match s with EmptyString => false | String _ s' => like p s' end.
Proof.
  destruct s; reflexivity.
Qed.

Lemma like_char c p s :
  Ascii.eqb c percent = false ->
  Ascii.eqb c underscore = false ->
  Ascii.eqb c backslash = false ->
  like (String c p) s
  = match s with EmptyString => false | String x s' => Ascii.eqb x c && like p s' end.
Proof.
  intros H1 H2 H3.
  change (like (String c p) s)
    with (if Ascii.eqb c percent then
            (fix any (s : string) : bool :=
               like p s || match s with
                           | EmptyString => false
                           | String _ s' => any s'
                           end) s
          else if Ascii.eqb c underscore then
            match s with EmptyString => false | String _ s' => like p s' end
          else if Ascii.eqb c backslash then
            match p with
            | EmptyString => false
            | String e p'' =>
                match s with
                | EmptyString => false
                | String x s' => Ascii.eqb x e && like p'' s'
                end
            end
          else
            match s with
            | EmptyString => false
            | String x s' => Ascii.eqb x c && like p s'
            end).
  now rewrite H1, H2, H3.
Qed.

(** [%] at the head of a pattern lets the rest match any tail. *)
Lemma like_percent p : forall s,
  like (String percent p) s = true <->
  exists pre post, s = pre ^^ post /\ like p post = true.
Proof.
  induction s as [| c s IH]; rewrite like_percent_unfold.
  - rewrite orb_false_r. split.
    + intros H. now exists EmptyString, EmptyString.
    + intros (pre & post & Hs & Hp). destruct pre; [| discriminate].
      simpl in Hs. now subst.
  - rewrite orb_true_iff, IH. split.
    + intros [H | (pre & post & -> & Hp)].
      * now exists EmptyString, (String c s).
      * now exists (String c pre), post.
    + intros (pre & post & Hs & Hp). destruct pre as [| x pre].
      * left. simpl in Hs. now subst.
      * right. simpl in Hs. inversion Hs; subst. eauto.
Qed.

Lemma like_empty s : like EmptyString s = true <-> s = EmptyString.
Proof.
  destruct s; simpl; split; congruence.
Qed.

(** A pattern without a backslash followed by another matches a text
    exactly when the text splits in two parts the two match. *)
Lemma like_concat q : forall p,
  no_escape p = true ->
  forall s, like (p ^^ q) s = true <->
            exists mid rest, s = mid ^^ rest /\ like p mid = true /\ like q rest = true.
Proof.
  induction p as [| c p IH]; intros Hp s.
  - simpl. split.
    + intros H. now exists EmptyString, s.
    + intros (mid & rest & -> & Hm & Hr). apply like_empty in Hm. now subst.
  - simpl in Hp. apply andb_true_iff in Hp as [Hc Hp]. apply negb_true_iff in Hc.
    change (String c p ^^ q) with (String c (p ^^ q)).
    destruct (Ascii.eqb_spec c percent) as [-> | Hpc].
    + rewrite like_percent. split.
      * intros (pre & post & -> & H). apply (IH Hp) in H as (mid & rest & -> & Hm & Hr).
        exists (pre ^^ mid), rest. split; [now rewrite append_assoc3 |].
        split; [| assumption]. apply like_percent. eauto.
      * intros (mid & rest & -> & Hm & Hr).
        apply like_percent in Hm as (pre & post & -> & Hpost).
        exists pre, (post ^^ rest). split; [now rewrite append_assoc3 |].
        apply (IH Hp). eauto.
    + destruct (Ascii.eqb_spec c underscore) as [-> | Huc].
      * rewrite like_underscore. destruct s as [| x s].
        -- split; [discriminate |]. intros (mid & rest & Hs & Hm & _).
           destruct mid; [discriminate Hm | discriminate Hs].
        -- rewrite (IH Hp). split.
           ++ intros (mid & rest & -> & Hm & Hr). exists (String x mid), rest. auto.
           ++ intros (mid & rest & Hs & Hm & Hr). destruct mid as [| y mid];
                [discriminate Hm |].
              simpl in Hs. inversion Hs; subst. rewrite like_underscore in Hm. eauto.
      * apply Ascii.eqb_neq in Hpc, Huc. rewrite like_char by assumption.
        destruct s as [| x s].
        -- split; [discriminate |]. intros (mid & rest & Hs & Hm & _).
           rewrite like_char in Hm by assumption.
           destruct mid; [discriminate Hm | discriminate Hs].
        -- rewrite andb_true_iff, (IH Hp). split.
           ++ intros (Hx & mid & rest & -> & Hm & Hr). exists (String x mid), rest.
              split; [reflexivity |]. split; [| assumption].
              rewrite like_char by assumption. now rewrite Hx.
           ++ intros (mid & rest & Hs & Hm & Hr). rewrite like_char in Hm by assumption.
              destruct mid as [| y mid]; [discriminate Hm |].
              simpl in Hs. inversion Hs; subst.
              apply andb_true_iff in Hm as [Hx Hm]. split; [assumption |].
              exists mid, rest. auto.
Qed.

(** A pattern without special characters matches itself only. *)
Lemma like_plain : forall v, plain v = true -> forall s, like v s = true <-> s = v.
Proof.
  induction v as [| c v IH]; intros Hv s.
  - apply like_empty.
  - simpl in Hv. repeat (apply andb_true_iff in Hv as [Hv ?]).
    rewrite like_char by (now apply negb_true_iff).
    destruct s as [| x s]; [split; discriminate |].
    rewrite andb_true_iff, (IH H), Ascii.eqb_eq. split.
    + now intros [-> ->].
    + intros E. now inversion E.
Qed.

Lemma lower_append (a b : string) : lower (a ^^ b) = lower a ^^ lower b.
Proof.
  induction a as [| c a IH]; simpl; [reflexivity | now rewrite IH].
Qed.

Lemma lower_ascii_special c :
  Ascii.eqb (lower_ascii c) percent = Ascii.eqb c percent /\
  Ascii.eqb (lower_ascii c) underscore = Ascii.eqb c underscore /\
  Ascii.eqb (lower_ascii c) backslash = Ascii.eqb c backslash.
Proof.
  destruct c as [[] [] [] [] [] [] [] []]; repeat split; reflexivity.
Qed.

Lemma no_escape_lower v : no_escape (lower v) = no_escape v.
Proof.
  induction v as [| c v IH]; simpl; [reflexivity |].
  destruct (lower_ascii_special c) as (_ & _ & ->). now rewrite IH.
Qed.

Lemma plain_lower v : plain (lower v) = plain v.
Proof.
  induction v as [| c v IH]; simpl; [reflexivity |].
  destruct (lower_ascii_special c) as (-> & -> & ->). now rewrite IH.
Qed.

Lemma plain_no_escape v : plain v = true -> no_escape v = true.
Proof.
  induction v as [| c v IH]; simpl; [reflexivity |].
  intros H. repeat (apply andb_true_iff in H as [H ?]).
  apply andb_true_iff. auto.
Qed.

Lemma like_everything s : like (String percent EmptyString) s = true.
Proof.
  apply like_percent. exists s, EmptyString. now rewrite append_empty_r.
Qed.

(** The pattern of [query_similar] finds the value, read as a pattern,
    anywhere in the text, in any case. *)
Lemma ilike_anywhere v s :
  no_escape v = true ->
  ilike ("%" ^^ v ^^ "%") s = true <->
  exists pre mid post, lower s = pre ^^ mid ^^ post /\ like (lower v) mid = true.
Proof.
  intros Hv. unfold ilike.
  change (lower ("%" ^^ v ^^ "%")) with (String percent (lower (v ^^ "%"))).
  rewrite lower_append. change (lower "%") with (String percent EmptyString).
  rewrite like_percent. split.
  - intros (pre & post & Hs & H).
    apply like_concat in H as (mid & rest & -> & Hm & _); [| now rewrite no_escape_lower].
    eauto.
  - intros (pre & mid & post & Hs & Hm). exists pre, (mid ^^ post). split; [assumption |].
    apply like_concat; [now rewrite no_escape_lower |].
    exists mid, post. split; [reflexivity |]. split; [assumption | apply like_everything].
Qed.





(** ** The two policies *)

Section Policies.

Variable coerce : pg_type -> value -> option value.

Lemma cur_execute_insert_outcome q cols row c1 c2 :
  c_db c1 = c_db c2 ->
  outcome (cur_execute_insert coerce c1 q cols row)
  = outcome (cur_execute_insert coerce c2 q cols row).
Proof.
  intros H. unfold cur_execute_insert. rewrite H.
  destruct (store_insert coerce (c_db c2) cols row) as [[d r] |]; reflexivity.
Qed.

Lemma insert_loop_outcome q cols : forall rows start1 start2,
  outcome start1 = outcome start2 ->
  outcome (insert_loop coerce q cols rows start1)
  = outcome (insert_loop coerce q cols rows start2).
Proof.
  induction rows as [| row rows IH]; intros start1 start2 H; [exact H |].
  unfold insert_loop. cbn [fold_left]. apply IH.
  destruct start1 as [c1 | e1], start2 as [c2 | e2]; simpl in H; try discriminate.
  - cbn [bind]. apply cur_execute_insert_outcome. congruence.
  - exact H.
Qed.

Lemma _insert_data_outcome self c1 c2 :
  c_db c1 = c_db c2 ->
  outcome (_insert_data coerce self c1) = outcome (_insert_data coerce self c2).
Proof.
  intros H. unfold _insert_data. destruct (df self) as [d |]; [| reflexivity].
  destruct (df_empty d); [simpl; congruence |].
  destruct (columns d); [simpl; congruence |].
  apply insert_loop_outcome. simpl. congruence.
Qed.

Lemma _create_table_outcome self c1 c2 :
  c_db c1 = c_db c2 ->
  outcome (_create_table_with_id self c1) = outcome (_create_table_with_id self c2).
Proof.
  intros H. unfold _create_table_with_id.
  destruct (create_table_query self); [| reflexivity]. cbn [bind].
  destruct (df self) as [d |]; [| reflexivity]. rewrite H.
  destruct (store_create (c_db c2) (descriptors d)); reflexivity.
Qed.

(** What a run of the constructor on a frame that is not empty leaves in
    the store, and how it ends, does not depend on what the store held
    under the overwrite policy: it is what a run under either policy
    leaves when the table does not exist. *)
Theorem overwrite_is_a_run_from_nothing :
  forall schema_ table_ append_ d c c0,
    df_empty d = false ->
    c_db c0 = None ->
    run_outcome (__init__ coerce schema_ table_ false (Some d) c)
    = run_outcome (__init__ coerce schema_ table_ append_ (Some d) c0).
Proof.
  intros schema_ table_ append_ d c c0 Hne H0. unfold __init__. rewrite Hne.
  set (self1 := mkIngestion schema_ table_ false (Some d)).
  set (self2 := mkIngestion schema_ table_ append_ (Some d)).
  set (c1 := _drop_table_if_exists self1 c).
  set (c2 := if append_ then c0 else _drop_table_if_exists self2 c0).
  assert (Hdb : c_db c1 = c_db c2).
  { unfold c1, c2, _drop_table_if_exists, logged, store_drop.
    destruct append_; cbn [c_db]; [now rewrite H0 | reflexivity]. }
  assert (Hcreate : outcome (_create_table_with_id self1 c1)
                    = outcome (_create_table_with_id self2 c2)).
  { rewrite (_create_table_outcome self1 c1 c2 Hdb).
    unfold _create_table_with_id, create_table_query. reflexivity. }
  destruct (_create_table_with_id self1 c1) as [a1 | e1],
           (_create_table_with_id self2 c2) as [a2 | e2];
    simpl in Hcreate; try discriminate.
  - cbv beta iota.
    assert (Hins : outcome (_insert_data coerce self1 a1)
                   = outcome (_insert_data coerce self2 a2)).
    { rewrite (_insert_data_outcome self1 a1 a2) by congruence.
      unfold _insert_data. cbn [df self1 self2].
      destruct (df_empty d); [reflexivity |]. destruct (columns d); reflexivity. }
    destruct (_insert_data coerce self1 a1) as [b1 | f1],
             (_insert_data coerce self2 a2) as [b2 | f2];
      simpl in Hins; try discriminate; unfold run_outcome; cbn [fst snd]; congruence.
  - unfold run_outcome. cbn [fst snd]. rewrite Hdb. congruence.
Qed.

End Policies.

Lemma overwrite_is_a_run_from_nothing_witness :
  run_outcome (__init__ pg_coerce "public" (Some "csv_data_table01") false (Some people)
                        (mkConn (Some tagged_rows) []))
  = run_outcome (__init__ pg_coerce "public" (Some "csv_data_table01") true (Some people)
                          fresh).
Proof.
  exact (overwrite_is_a_run_from_nothing pg_coerce "public" (Some "csv_data_table01") true
           people (mkConn (Some tagged_rows) []) fresh eq_refl eq_refl).
Defined.

(** ** Edge cases of the update *)

Lemma keys_dict_set_in {V} (d : dict V) k v : In k (keys d) -> keys (dict_set d k v) = keys d.
Proof.
  induction d as [| [k0 v0] r IH]; simpl; [contradiction |].
  destruct (String.eqb_spec k0 k) as [-> | Hne]; [reflexivity |].
  intros [E | Hin]; [contradiction |]. simpl. f_equal. auto.
Qed.

Lemma dict_set_idem {V} (d : dict V) k v : dict_set (dict_set d k v) k v = dict_set d k v.
Proof.
  apply dict_set_same. now rewrite dict_get_set, String.eqb_refl.
Qed.


